(** * TimeTravel: the scan pipeline of [server/routes.ts]

    A shallow embedding of the three components of the scan pipeline
    ([fetchSnapshots], [extractData] and the [/api/scan] handler registered
    by [registerRoutes]) together with the part of the JavaScript runtime
    they rely on: strings of code units, [RegExp] compilation and [exec],
    [try]/[catch], and the event stream written to the response.

    Conventions.
    - A JavaScript string is a list of code units.  Code units are
      modelled by [ascii], read as the Latin-1 range 0..255.
    - A computation that may throw is a value of [completion]; [Diverge]
      is the outcome of a loop that is still running when its fuel is
      spent, so that termination is a theorem and not an assumption.
    - The HTML parser (cheerio) is an external library: it is the
      interface [Cheerio], and every statement about [extractData] holds
      for every implementation of it. *)

From Stdlib Require Import List Ascii String Arith Bool Lia PeanoNat.
From Stdlib Require Import DecimalString Sorted.
Import ListNotations.

Set Implicit Arguments.

Open Scope string_scope.
Open Scope list_scope.
Open Scope nat_scope.

(* ================================================================== *)
(** * Part I: definitions                                              *)
(* ================================================================== *)

(** ** JavaScript strings *)

Definition str := list ascii.

Definition lit (s : string) : str := list_ascii_of_string s.
Coercion lit : string >-> str.

(** String concatenation, with literals read as [str]. *)
Notation "a +++ b" := (@app ascii (a : str) (b : str))
  (at level 60, right associativity, only parsing).

Module Char.

Definition code (c : ascii) : nat := nat_of_ascii c.

Definition between (lo hi : nat) (c : ascii) : bool :=
  (lo <=? code c) && (code c <=? hi).

(** [WhiteSpace] and [LineTerminator] code units below 256: the
    characters matched by [\s] and removed by [trim]. *)
Definition is_space (c : ascii) : bool :=
  between 9 13 c || (code c =? 32) || (code c =? 160).

(** [LineTerminator] below 256: the characters [.] does not match. *)
Definition is_line_terminator (c : ascii) : bool :=
  (code c =? 10) || (code c =? 13).

Definition is_newline (c : ascii) : bool := code c =? 10.

(** [Canonicalize] for the [i] flag without [u]: the upper-case mapping
    of a single code unit.  Below 256 it moves [a-z] and the accented
    lower-case letters 224..254 (but not the division sign 247) down
    by 32; 181, 223 and 255 have no upper-case form below 256 and stand
    for themselves. *)
Definition canonicalize (c : ascii) : ascii :=
  if between 97 122 c || (between 224 254 c && negb (code c =? 247))
  then ascii_of_nat (code c - 32)
  else c.

(** Character comparison of the matcher: exact, or up to
    [canonicalize] when the [i] flag is set. *)
Definition matches (ignoreCase : bool) (pat c : ascii) : bool :=
  if ignoreCase
  then Ascii.eqb (canonicalize pat) (canonicalize c)
  else Ascii.eqb pat c.

End Char.

Module Str.

(** [s.substring(start, end)] for [start <= end]. *)
Definition substring (start end_ : nat) (s : str) : str :=
  firstn (end_ - start) (skipn start s).

Fixpoint drop_while (p : ascii -> bool) (s : str) : str :=
  match s with
  | [] => []
  | c :: s' => if p c then drop_while p s' else s
  end.

(** [s.trim()] *)
Definition trim (s : str) : str :=
  rev (drop_while Char.is_space (rev (drop_while Char.is_space s))).

(** [s.replace(/\s+/g, ' ')]: every maximal run of white space becomes
    one space. *)
Fixpoint collapse_run (in_run : bool) (s : str) : str :=
  match s with
  | [] => []
  | c :: s' =>
      if Char.is_space c
      then (if in_run then collapse_run true s'
            else " "%char :: collapse_run true s')
      else c :: collapse_run false s'
  end.

Definition collapse_spaces (s : str) : str := collapse_run false s.

(** [s.replace(/\n/g, " ")] *)
Definition newlines_to_spaces (s : str) : str :=
  map (fun c => if Char.is_newline c then " "%char else c) s.

Fixpoint prefix (p s : str) : bool :=
  match p, s with
  | [], _ => true
  | _ :: _, [] => false
  | a :: p', b :: s' => Ascii.eqb a b && prefix p' s'
  end.

(** [s.includes(needle)] *)
Fixpoint includes (needle s : str) : bool :=
  prefix needle s ||
  match s with
  | [] => false
  | _ :: s' => includes needle s'
  end.

(** [a === b] on strings *)
Fixpoint eqb (a b : str) : bool :=
  match a, b with
  | [], [] => true
  | x :: a', y :: b' => Ascii.eqb x y && eqb a' b'
  | _, _ => false
  end.

End Str.

(** ** Completions: normal return, exception, or a loop out of fuel *)

Inductive exn : Type :=
| SyntaxError
| TypeError
| NetworkError
| TimeoutError
| HttpError (status : nat)
| JsonError.

Inductive completion (A : Type) : Type :=
| Normal (a : A)
| Throw (e : exn)
| Diverge.

Arguments Normal {A} a.
Arguments Throw {A} e.
Arguments Diverge {A}.

Definition bind {A B} (c : completion A) (f : A -> completion B)
  : completion B :=
  match c with
  | Normal a => f a
  | Throw e => Throw e
  | Diverge => Diverge
  end.

Notation "x <- c ;; k" := (bind c (fun x => k))
  (at level 61, c at next level, right associativity).

(** [try { body } catch (e) { handler(e) }] *)
Definition try_catch {A} (body : completion A) (handler : exn -> completion A)
  : completion A :=
  match body with
  | Throw e => handler e
  | other => other
  end.

(** ** Regular expressions: syntax, compilation and matching *)

Module Regex.

(** The pattern language, after parsing.  [RSet] is a one-character
    test: [.] and character classes. *)
Inductive regex : Type :=
| REmpty
| RChar (c : ascii)
| RSet (p : ascii -> bool)
| RBol
| REol
| RSeq (r1 r2 : regex)
| RAlt (r1 r2 : regex)
| RStar (greedy : bool) (r : regex).

(** The fourteen [SyntaxCharacter]s of the pattern grammar. *)
Inductive token : Type :=
| TCaret | TDollar | TBackslash | TDot | TStar | TPlus | TQuestion
| TLParen | TRParen | TLBracket | TRBracket | TLBrace | TRBrace | TBar
| TLit (c : ascii).

Definition classify (c : ascii) : token :=
  if Ascii.eqb c "^" then TCaret
  else if Ascii.eqb c "$" then TDollar
  else if Ascii.eqb c "\" then TBackslash
  else if Ascii.eqb c "." then TDot
  else if Ascii.eqb c "*" then TStar
  else if Ascii.eqb c "+" then TPlus
  else if Ascii.eqb c "?" then TQuestion
  else if Ascii.eqb c "(" then TLParen
  else if Ascii.eqb c ")" then TRParen
  else if Ascii.eqb c "[" then TLBracket
  else if Ascii.eqb c "]" then TRBracket
  else if Ascii.eqb c "{" then TLBrace
  else if Ascii.eqb c "}" then TRBrace
  else if Ascii.eqb c "|" then TBar
  else TLit c.

Definition is_syntax_char (c : ascii) : bool :=
  match classify c with TLit _ => false | _ => true end.

Definition dot : regex :=
  RSet (fun c => negb (Char.is_line_terminator c)).

(** A quantifier after an atom: [*], [+], [?], each lazy when followed
    by [?]. *)
Definition quantified (q : token) (greedy : bool) (a : regex) : regex :=
  match q with
  | TStar => RStar greedy a
  | TPlus => RSeq a (RStar greedy a)
  | _ => if greedy then RAlt a REmpty else RAlt REmpty a
  end.

Definition parse_quantifier (a : regex) (p : str) : regex * str :=
  match p with
  | [] => (a, p)
  | q :: p' =>
      match classify q with
      | TStar | TPlus | TQuestion =>
          match p' with
          | l :: p'' =>
              match classify l with
              | TQuestion => (quantified (classify q) false a, p'')
              | _ => (quantified (classify q) true a, p')
              end
          | [] => (quantified (classify q) true a, p')
          end
      | _ => (a, p)
      end
  end.

(** Recursive descent over the pattern text.  The fragment covers
    pattern characters, identity escapes of syntax characters, [.],
    [^], [$], groups, alternation and the quantifiers [*], [+], [?].
    Anything else (classes, braces, other escapes) is answered [None];
    [compile_escaped] shows that [extractData] never builds such a
    pattern. *)
Fixpoint parse_disjunction (fuel : nat) (p : str) : option (regex * str) :=
  match fuel with
  | 0 => None
  | S f =>
      match parse_alternative f p with
      | Some (r1, c :: p') =>
          match classify c with
          | TBar =>
              match parse_disjunction f p' with
              | Some (r2, p'') => Some (RAlt r1 r2, p'')
              | None => None
              end
          | _ => Some (r1, c :: p')
          end
      | other => other
      end
  end
with parse_alternative (fuel : nat) (p : str) : option (regex * str) :=
  match fuel with
  | 0 => None
  | S f =>
      match p with
      | [] => Some (REmpty, [])
      | c :: _ =>
          match classify c with
          | TBar | TRParen => Some (REmpty, p)
          | _ =>
              match parse_term f p with
              | Some (t, p') =>
                  match parse_alternative f p' with
                  | Some (r, p'') => Some (RSeq t r, p'')
                  | None => None
                  end
              | None => None
              end
          end
      end
  end
with parse_term (fuel : nat) (p : str) : option (regex * str) :=
  match fuel with
  | 0 => None
  | S f =>
      match p with
      | [] => None
      | c :: p' =>
          match classify c with
          | TCaret => Some (RBol, p')
          | TDollar => Some (REol, p')
          | TDot => Some (parse_quantifier dot p')
          | TLit x => Some (parse_quantifier (RChar x) p')
          | TBackslash =>
              match p' with
              | e :: p'' =>
                  if is_syntax_char e
                  then Some (parse_quantifier (RChar e) p'')
                  else None
              | [] => None
              end
          | TLParen =>
              let inner :=
                match p' with
                | q :: c2 :: p'' =>
                    match classify q, Ascii.eqb c2 ":" with
                    | TQuestion, true => p''
                    | _, _ => p'
                    end
                | _ => p'
                end in
              match parse_disjunction f inner with
              | Some (r, c' :: rest) =>
                  match classify c' with
                  | TRParen => Some (parse_quantifier r rest)
                  | _ => None
                  end
              | _ => None
              end
          | _ => None
          end
      end
  end.

(** [new RegExp(pattern, flags)]: the parsed pattern, or a
    [SyntaxError]. *)
Definition RegExp_new (pattern : str) : completion regex :=
  match parse_disjunction (3 * List.length pattern + 3) pattern with
  | Some (r, []) => Normal r
  | _ => Throw SyntaxError
  end.

(** One star: [iter] matches the starred pattern once.  A round that
    consumes nothing is rejected, as the language specification's
    [RepeatMatcher] does; [fuel] bounds the number of rounds by the
    length of the input that is left. *)
Fixpoint star_loop (iter : str -> (str -> option str) -> option str)
         (greedy : bool) (k : str -> option str) (fuel : nat) (s : str)
  : option str :=
  match fuel with
  | 0 => k s
  | S f =>
      let again s' :=
        if List.length s' <? List.length s
        then star_loop iter greedy k f s' else None in
      if greedy then
        match iter s again with
        | Some e => Some e
        | None => k s
        end
      else
        match k s with
        | Some e => Some e
        | None => iter s again
        end
  end.

(** Backtracking matcher in continuation-passing style.  [n] is the
    length of the whole input and [s] the input that is left, so the
    current index is [n - length s]; the continuation receives the
    input left after the match.  Alternatives are tried left to right. *)
Fixpoint rmatch (ignoreCase : bool) (n : nat) (r : regex) (s : str)
         (k : str -> option str) {struct r} : option str :=
  match r with
  | REmpty => k s
  | RChar c =>
      match s with
      | x :: s' => if Char.matches ignoreCase c x then k s' else None
      | [] => None
      end
  | RSet p =>
      match s with
      | x :: s' => if p x then k s' else None
      | [] => None
      end
  | RBol => if List.length s =? n then k s else None
  | REol => match s with [] => k s | _ :: _ => None end
  | RSeq r1 r2 =>
      rmatch ignoreCase n r1 s (fun s' => rmatch ignoreCase n r2 s' k)
  | RAlt r1 r2 =>
      match rmatch ignoreCase n r1 s k with
      | Some e => Some e
      | None => rmatch ignoreCase n r2 s k
      end
  | RStar greedy r' =>
      star_loop (rmatch ignoreCase n r') greedy k (S (List.length s)) s
  end.

(** A continuation that returns some of the input it is given. *)
Definition shrinking (k : str -> option str) : Prop :=
  forall s res, k s = Some res -> List.length res <= List.length s.

(** A pattern every match of which takes at least one character. *)
Definition consuming (ignoreCase : bool) (r : regex) : Prop :=
  forall n s res, rmatch ignoreCase n r s Some = Some res ->
                  List.length res < List.length s.

(** The result of a successful [exec]: [index] is [match.index] and
    [stop] the index just after the matched text. *)
Record match_result : Type := { index : nat; stop : nat }.

(** Scan forward for the first index at which the pattern matches. *)
Fixpoint search (ignoreCase : bool) (n : nat) (r : regex) (s : str)
  : option match_result :=
  match rmatch ignoreCase n r s Some with
  | Some rest =>
      Some {| index := n - List.length s; stop := n - List.length rest |}
  | None =>
      match s with
      | [] => None
      | _ :: s' => search ignoreCase n r s'
      end
  end.

(** [re.exec(text)] for a pattern with the [g] flag: the search starts
    at [lastIndex]; the second component is the new [lastIndex]. *)
Definition exec (ignoreCase : bool) (r : regex) (text : str)
           (lastIndex : nat) : option match_result * nat :=
  if List.length text <? lastIndex then (None, 0)
  else
    match search ignoreCase (List.length text) r (skipn lastIndex text) with
    | Some m => (Some m, stop m)
    | None => (None, 0)
    end.

(** The loop
    [while ((m = re.exec(text)) !== null) { body; if (m.index === re.lastIndex) re.lastIndex++; }]
    threading the loop's accumulator; [guard] tells whether the loop
    has the zero-width adjustment of [lastIndex]. *)
Fixpoint exec_loop {A : Type} (fuel : nat) (ignoreCase : bool) (r : regex)
         (text : str) (guard : bool)
         (body : A -> match_result -> completion A)
         (lastIndex : nat) (acc : A) : completion A :=
  match fuel with
  | 0 => Diverge
  | S f =>
      match exec ignoreCase r text lastIndex with
      | (None, _) => Normal acc
      | (Some m, li) =>
          acc' <- body acc m ;;
          exec_loop f ignoreCase r text guard body
            (if guard && (index m =? li) then S li else li) acc'
      end
  end.

(** Fuel that lets a loop whose [lastIndex] grows at every round run to
    its end. *)
Definition loop_fuel (text : str) : nat := List.length text + 2.

End Regex.

(** ** JavaScript values read from JSON *)

(** What [response.json()] can produce, and [undefined] for a
    destructured position that is absent.  A number is kept as the text
    [ToString] gives for it. *)
#[warnings="-register-all"]
Inductive jsval : Type :=
| JUndefined
| JNull
| JBool (b : bool)
| JNum (repr : str)
| JStr (s : str)
| JArr (items : list jsval)
| JObj (fields : list (str * jsval)).

Fixpoint join (sep : str) (parts : list str) : str :=
  match parts with
  | [] => []
  | [p] => p
  | p :: rest => p ++ sep ++ join sep rest
  end.

(** An object has an own property named [key]. *)
Definition has_key (key : str) (fields : list (str * jsval)) : bool :=
  existsb (fun field => Str.eqb (fst field) key) fields.

(** [ToString], as applied by a template literal.  An array is joined
    with commas, its [null] and [undefined] items printing as nothing.
    An object read from JSON prints as [[object Object]] through
    [Object.prototype.toString], unless it has an own property
    [toString]: that property is not callable, [valueOf] does not yield a
    primitive either, and the conversion raises [TypeError]. *)
Fixpoint to_string (v : jsval) : completion str :=
  match v with
  | JUndefined => Normal (lit "undefined")
  | JNull => Normal (lit "null")
  | JBool true => Normal (lit "true")
  | JBool false => Normal (lit "false")
  | JNum repr => Normal repr
  | JStr s => Normal s
  | JArr items =>
      parts <-
        (fix each_item (l : list jsval) : completion (list str) :=
           match l with
           | [] => Normal []
           | x :: rest =>
               part <- match x with
                       | JUndefined | JNull => Normal []
                       | _ => to_string x
                       end ;;
               parts <- each_item rest ;;
               Normal (part :: parts)
           end) items ;;
      Normal (join "," parts)
  | JObj fields =>
      if has_key "toString" fields then Throw TypeError
      else Normal (lit "[object Object]")
  end.

(** A value that a template literal can print, and the text it prints. *)
Definition convertible (v : jsval) : bool :=
  match to_string v with
  | Normal _ => true
  | _ => false
  end.

Definition shown (v : jsval) : str :=
  match to_string v with
  | Normal s => s
  | _ => []
  end.

Definition nat_to_str (n : nat) : str :=
  lit (NilEmpty.string_of_uint (Nat.to_uint n)).

(** ** Data model *)

(** [interface Snapshot].  The fields are declared [string]; at run time
    they hold whatever the index response had at the two positions. *)
Module Snapshot.
Record t : Type := { timestamp : jsval; original : jsval }.
End Snapshot.

Inductive MatchType : Type := TEXT | JS | COMMENT.

Module ScanMatch.
Record t : Type := {
  timestamp : jsval;
  archiveUrl : str;
  matchType : MatchType;
  snippet : str
}.
End ScanMatch.

Inductive ScanEvent : Type :=
| Progress (message : str) (currentSnapshot totalSnapshots : option nat)
| MatchEvent (m : ScanMatch.t)
| Complete (message : str)
| Error (error : str).

(** ** The HTML parser interface *)

Inductive selector : Type :=
| ByIds (ids : list str)
| ByTag (tag : str)
| ByTagAttrContains (tag attr part : str).

(** The operations of cheerio that [extractData] calls:
    [cheerio.load(html)], [$(sel).remove()], [$(sel).text()],
    [$(el).html()] for each element selected by [sel] in document order
    ([None] is JavaScript's [null]), and [$.html()]. *)
Class Cheerio : Type := {
  dom : Type;
  load : str -> dom;
  remove : selector -> dom -> dom;
  text : selector -> dom -> str;
  each_html : selector -> dom -> list (option str);
  html_of : dom -> str
}.

(** ** Snapshot extractor: [extractData] *)

Module Extractor.

Import Regex.

(** [keyword.replace(/[.*+?^${}()|[\]\\]/g, '\\$&')] *)
Definition escapeKeyword (keyword : str) : str :=
  flat_map (fun c => if is_syntax_char c then ["\"%char; c] else [c])
           keyword.

(** The literal [/<!--([\s\S]*?)-->/g]: the class [[\s\S]] accepts every
    character and the star is lazy. *)
Definition commentRegex : regex :=
  RSeq (RChar "<") (RSeq (RChar "!") (RSeq (RChar "-") (RSeq (RChar "-")
    (RSeq (RStar false
             (RSet (fun c => Char.is_space c || negb (Char.is_space c))))
       (RSeq (RChar "-") (RSeq (RChar "-") (RChar ">"))))))).

(** [commentMatch[1]]: the match is the opening mark, the group and the
    closing mark, so the group lies between [index + 4] and [stop - 3]. *)
Definition group1 (htmlString : str) (m : match_result) : str :=
  Str.substring (index m + 4) (stop m - 3) htmlString.

Definition ellipsis : str := "...".

(** [Math.max(0, match.index - 30)] and
    [Math.min(text.length, match.index + keyword.length + 30)] *)
Definition snippet_start (m : match_result) : nat :=
  Nat.max 0 (index m - 30).

Definition snippet_end (text keyword : str) (m : match_result) : nat :=
  Nat.min (List.length text) (index m + List.length keyword + 30).

Definition window (text keyword : str) (m : match_result) : str :=
  Str.substring (snippet_start m) (snippet_end text keyword m) text.

Definition text_snippet (text keyword : str) (m : match_result) : str :=
  ellipsis ++ Str.newlines_to_spaces (window text keyword m) ++ ellipsis.

Definition js_snippet (text keyword : str) (m : match_result) : str :=
  ellipsis ++ Str.trim (Str.newlines_to_spaces (window text keyword m))
           ++ ellipsis.

Definition comment_snippet (text keyword : str) (m : match_result) : str :=
  ellipsis ++ Str.trim (window text keyword m) ++ ellipsis.

Definition zone_snippet (zone : MatchType) : str -> str -> match_result -> str :=
  match zone with
  | TEXT => text_snippet
  | JS => js_snippet
  | COMMENT => comment_snippet
  end.

(** [$(sel).each(f)], threading the array the callback pushes to. *)
Fixpoint each {A B : Type} (f : A -> B -> completion A) (items : list B)
         (acc : A) : completion A :=
  match items with
  | [] => Normal acc
  | x :: rest => acc' <- f acc x ;; each f rest acc'
  end.

Section WithParser.

Context {parser : Cheerio}.

Section Zones.

Variables (keyword : str) (timestamp : jsval) (archiveUrl : str).

(** [matches.push({ timestamp, archiveUrl, matchType, snippet })] *)
Definition push (zone : MatchType) (text : str)
         (matches : list ScanMatch.t) (m : match_result)
: completion (list ScanMatch.t) :=
Normal (matches ++
        [{| ScanMatch.timestamp := timestamp;
            ScanMatch.archiveUrl := archiveUrl;
            ScanMatch.matchType := zone;
            ScanMatch.snippet := zone_snippet zone text keyword m |}]).

(** One of the three inner loops: a fresh pattern with flags [gi],
  [lastIndex] starting at 0. *)
Definition scan_zone (zone : MatchType) (text : str)
         (matches : list ScanMatch.t) : completion (list ScanMatch.t) :=
pattern <- RegExp_new (escapeKeyword keyword) ;;
exec_loop (loop_fuel text) true pattern text true (push zone text)
          0 matches.

(** The callback of [$("script").each]. *)
Definition scan_script (matches : list ScanMatch.t)
         (scriptContent : option str) : completion (list ScanMatch.t) :=
match scriptContent with
| Some ((_ :: _) as content) => scan_zone JS content matches
| _ => Normal matches
end.

(** The body of the loop over [commentRegex]. *)
Definition scan_comment (htmlString : str) (matches : list ScanMatch.t)
         (commentMatch : match_result) : completion (list ScanMatch.t) :=
let comment := group1 htmlString commentMatch in
if Str.includes "FILE ARCHIVED ON" comment then Normal matches
else scan_zone COMMENT comment matches.

End Zones.

Definition extractData (html keyword : str) (timestamp : jsval)
           (archiveUrl : str) : completion (list ScanMatch.t) :=
  let matches := [] in
  let d := load html in
  let d := remove (ByIds ["wm-ipp-base" : str; "wm-ipp" : str;
                          "donato" : str]) d in
  let d := remove (ByTagAttrContains "script" "src" "archive.org") d in
  let textContent :=
    Str.trim (Str.collapse_spaces (text (ByTag "body") d)) in
  matches <- scan_zone keyword timestamp archiveUrl TEXT textContent
               matches ;;
  matches <- each (scan_script keyword timestamp archiveUrl)
               (each_html (ByTag "script") d) matches ;;
  let htmlString := html_of d in
  matches <- exec_loop (loop_fuel htmlString) false commentRegex
               htmlString false
               (scan_comment keyword timestamp archiveUrl htmlString)
               0 matches ;;
  Normal matches.

End WithParser.

End Extractor.

(** ** The outside world *)

(** What [await fetch(url, ...)] followed by reading the body can give:
    the request is rejected (network failure, or the 60 s abort signal),
    or a response arrives with a status and a body; [None] is a body that
    cannot be read in the requested form. *)
Inductive http (B : Type) : Type :=
| Rejected (e : exn)
| Response (status : nat) (body : option B).

Arguments Rejected {B} e.
Arguments Response {B} status body.

(** [response.ok] *)
Definition ok (status : nat) : bool := (200 <=? status) && (status <=? 299).

(** The parameters of the index query, as put in [URLSearchParams]. *)
Record IndexQuery : Type := {
  q_url : str;
  q_output : str;
  q_fl : str;
  q_filter : str;
  q_limit : str;
  q_from : option str;
  q_to : option str
}.

(** One scan's environment: the index's answer to a query, the replay
    endpoint's answer to the request made in iteration [i] for a URL, the
    value of [clientConnected] read at the top of iteration [i], and the
    text the runtime gives as [error.message] for an exception. *)
Record World : Type := {
  cdx : IndexQuery -> http jsval;
  replay : nat -> str -> http str;
  connected : nat -> bool;
  error_message : exn -> str
}.

(** ** Snapshot index client: [fetchSnapshots] *)

Module IndexClient.

(** The arrow function's parameter pattern [[timestamp, original]]:
    an array gives its first two items, a string its first two
    characters, and a value that is not iterable raises [TypeError]. *)
Definition destructure_pair (row : jsval) : completion (jsval * jsval) :=
  match row with
  | JArr items => Normal (nth 0 items JUndefined, nth 1 items JUndefined)
  | JStr s =>
      let char_at i :=
        match nth_error s i with
        | Some c => JStr [c]
        | None => JUndefined
        end in
      Normal (char_at 0, char_at 1)
  | _ => Throw TypeError
  end.

Definition to_snapshot (row : jsval) : completion Snapshot.t :=
  p <- destructure_pair row ;;
  Normal {| Snapshot.timestamp := fst p; Snapshot.original := snd p |}.

(** [array.map(f)] with a callback that may throw. *)
Fixpoint map_throwing {A B : Type} (f : A -> completion B) (l : list A)
  : completion (list B) :=
  match l with
  | [] => Normal []
  | x :: rest =>
      y <- f x ;;
      ys <- map_throwing f rest ;;
      Normal (y :: ys)
  end.

Definition build_query (domain : str) (year : option str) (limit : nat)
  : IndexQuery :=
  let params :=
    {| q_url := domain;
       q_output := "json";
       q_fl := "timestamp,original";
       q_filter := "statuscode:200";
       q_limit := nat_to_str limit;
       q_from := None;
       q_to := None |} in
  match year with
  | Some ((_ :: _) as y) =>
      {| q_url := q_url params;
         q_output := q_output params;
         q_fl := q_fl params;
         q_filter := q_filter params;
         q_limit := q_limit params;
         q_from := Some (y +++ "0101");
         q_to := Some (y +++ "1231") |}
  | _ => params
  end.

(** The body of the [try] block. *)
Definition request (w : World) (params : IndexQuery)
  : completion (list Snapshot.t) :=
  match cdx w params with
  | Rejected e => Throw e
  | Response status body =>
      if negb (ok status) then Throw (HttpError status)
      else
        data <- match body with
                | Some v => Normal v
                | None => Throw JsonError
                end ;;
        match data with
        | JArr rows =>
            if List.length rows <=? 1 then Normal []
            else map_throwing to_snapshot (skipn 1 rows)
        | _ => Normal []
        end
  end.

Definition fetchSnapshots (w : World) (domain : str) (year : option str)
           (limit : nat) : completion (list Snapshot.t) :=
  let params := build_query domain year limit in
  try_catch (request w params) (fun _ => Normal []).

(** A value the parameter pattern can be matched against. *)
Definition iterable (row : jsval) : bool :=
  match row with
  | JArr _ | JStr _ => true
  | _ => false
  end.

(** The index request fails: it is rejected (network failure, timeout),
    the status is not a success, the body is not JSON, the JSON is not
    an array, or a row after the header cannot be destructured. *)
Definition index_failure (r : http jsval) : bool :=
  match r with
  | Rejected _ => true
  | Response status body =>
      negb (ok status) ||
      match body with
      | None => true
      | Some (JArr rows) =>
          existsb (fun row => negb (iterable row)) (skipn 1 rows)
      | Some _ => true
      end
  end.

(** The index's answer when it knows no capture: the header row alone. *)
Definition header_only : http jsval :=
  Response 200 (Some (JArr [JArr [JStr "timestamp"; JStr "original"]])).

Definition nonempty_string (v : jsval) : bool :=
  match v with
  | JStr (_ :: _) => true
  | _ => false
  end.

(** A row that starts with two non-empty strings. *)
Definition well_formed_row (row : jsval) : bool :=
  match row with
  | JArr (t :: o :: _) => nonempty_string t && nonempty_string o
  | _ => false
  end.

(** The entry at position [i] of a row: an item of an array, a character
    of a string, [undefined] when the row is shorter. *)
Definition entry (i : nat) (row : jsval) : jsval :=
  match row with
  | JArr items => nth i items JUndefined
  | JStr s =>
      match nth_error s i with
      | Some c => JStr [c]
      | None => JUndefined
      end
  | _ => JUndefined
  end.

(** The snapshot made of the first two entries of a row. *)
Definition row_snapshot (row : jsval) : Snapshot.t :=
  {| Snapshot.timestamp := entry 0 row; Snapshot.original := entry 1 row |}.

End IndexClient.

(** ** Scan orchestrator: the [/api/scan] handler *)

Module Orchestrator.

Import Extractor IndexClient.

(** [validation.data] *)
Record ScanRequest : Type := {
  domain : str;
  year : option str;
  keyword : str;
  limit : nat
}.

(** The response as the caller sees it: the events written by
    [sendProgress], in order, and whether [res.end()] was called. *)
Record Stream : Type := { events : list ScanEvent; ended : bool }.

(** How the [for] loop is left: by the [return] taken when the client
    is gone, by running past the last snapshot (with the value of
    [foundAny]), by an exception raised outside the inner [try] block,
    which the outer [catch] receives, or never, when an extraction does
    not return. *)
Inductive loop_exit : Type :=
| Disconnected
| Finished (foundAny : bool)
| Failed (e : exn)
| Hung.

(** The template literal that builds [archiveUrl]: the timestamp is
    printed, then the original URL, and either conversion may throw. *)
Definition archive_url (s : Snapshot.t) : completion str :=
  t <- to_string (Snapshot.timestamp s) ;;
  o <- to_string (Snapshot.original s) ;;
  Normal ("https://web.archive.org/web/" +++ t +++ "/" +++ o).

(** A snapshot whose two fields can be printed, and its archive URL. *)
Definition convertible_snapshot (s : Snapshot.t) : bool :=
  convertible (Snapshot.timestamp s) && convertible (Snapshot.original s).

Definition url_of (s : Snapshot.t) : str :=
  "https://web.archive.org/web/" +++ shown (Snapshot.timestamp s)
    +++ "/" +++ shown (Snapshot.original s).

Definition contacting_event (req : ScanRequest) : ScanEvent :=
  Progress ("Contacting Wayback Machine for: " +++ domain req +++ "...")
           None None.

Definition analyzing_event (req : ScanRequest) (total : nat) : ScanEvent :=
  Progress ("Analyzing " +++ nat_to_str total +++ " snapshots for '"
              +++ keyword req +++ "'...")
           (Some 0) (Some total).

(** The progress event of iteration [i]; [label] is the timestamp as the
    template literal prints it. *)
Definition scanning_event (total i : nat) (label : str) : ScanEvent :=
  Progress ("Scanning snapshot: " +++ label +++ "...")
           (Some (i + 1)) (Some total).

(** What iteration [i] computes between the connection test and the
    inner [try] block: [archiveUrl], then the progress event, whose
    message prints the timestamp once more.  An exception raised here is
    outside the inner [try] block. *)
Definition prepare (total i : nat) (s : Snapshot.t)
  : completion (str * ScanEvent) :=
  archiveUrl <- archive_url s ;;
  label <- to_string (Snapshot.timestamp s) ;;
  Normal (archiveUrl, scanning_event total i label).

Section WithParser.

Context {parser : Cheerio}.

(** The inner [try] block of iteration [i]: the page is fetched and,
    when the response is [ok], its text is handed to [extractData]. *)
Definition visit (w : World) (keyword : str) (i : nat) (s : Snapshot.t)
           (archiveUrl : str) : completion (list ScanMatch.t) :=
  match replay w i archiveUrl with
  | Rejected e => Throw e
  | Response status body =>
      if ok status then
        match body with
        | Some page =>
            extractData page keyword (Snapshot.timestamp s) archiveUrl
        | None => Throw NetworkError
        end
      else Normal []
  end.

(** The [for] loop from iteration [i] on; [out] holds the events
    written so far. *)
Fixpoint scan_from (w : World) (keyword : str) (total i : nat)
         (snapshots : list Snapshot.t) (foundAny : bool)
         (out : list ScanEvent) : list ScanEvent * loop_exit :=
  match snapshots with
  | [] => (out, Finished foundAny)
  | s :: rest =>
      if negb (connected w i) then (out, Disconnected)
      else
        match prepare total i s with
        | Throw e => (out, Failed e)
        | Diverge => (out, Hung)
        | Normal (archiveUrl, progress) =>
            let out := out ++ [progress] in
            match visit w keyword i s archiveUrl with
            | Normal matches =>
                scan_from w keyword total (S i) rest
                  (if 0 <? List.length matches then true else foundAny)
                  (out ++ map MatchEvent matches)
            | Throw _ => scan_from w keyword total (S i) rest foundAny out
            | Diverge => (out, Hung)
            end
        end
  end.

(** The handler from the outer [try] on, for validated parameters.  An
    exception that leaves the loop reaches the outer [catch], which
    writes an [error] event with the exception's message; the response is
    then ended. *)
Definition scan (w : World) (req : ScanRequest) : Stream :=
  let out := [contacting_event req] in
  match fetchSnapshots w (domain req) (year req) (limit req) with
  | Normal snapshots =>
      if List.length snapshots =? 0 then
        {| events := out ++ [Complete "No snapshots found for this criteria."];
           ended := true |}
      else
        let total := List.length snapshots in
        let out := out ++ [analyzing_event req total] in
        match scan_from w (keyword req) total 0 snapshots false out with
        | (out, Disconnected) => {| events := out; ended := false |}
        | (out, Finished true) =>
            {| events := out ++ [Complete "Scan complete."];
               ended := true |}
        | (out, Finished false) =>
            {| events := out ++ [Complete "Scan finished. No matches found."];
               ended := true |}
        | (out, Failed e) =>
            {| events := out ++ [Error (error_message w e)];
               ended := true |}
        | (out, Hung) => {| events := out; ended := false |}
        end
  | Throw e =>
      {| events := out ++ [Error (error_message w e)];
         ended := true |}
  | Diverge => {| events := out; ended := false |}
  end.

End WithParser.

(** An event that belongs to the part of a scan before snapshot number
    [k + 1]: a progress event numbered at most [k], or a match; not a
    terminal event. *)
Definition before_snapshot (k : nat) (e : ScanEvent) : bool :=
  match e with
  | Progress _ (Some current) _ => current <=? k
  | Progress _ None _ => true
  | MatchEvent _ => true
  | Complete _ => false
  | Error _ => false
  end.

End Orchestrator.

(** ** A table-driven parser for worked examples *)

Module Sample.

(** What a loaded and cleaned document shows to [extractData]. *)
Record Document : Type := {
  body_text : str;
  script_bodies : list (option str);
  markup : str
}.

Definition blank : Document :=
  {| body_text := []; script_bodies := []; markup := [] |}.

Definition str_eqb (a b : str) : bool :=
  if list_eq_dec ascii_dec a b then true else false.

Fixpoint lookup (table : list (str * Document)) (html : str) : Document :=
  match table with
  | [] => blank
  | (page, d) :: rest => if str_eqb page html then d else lookup rest html
  end.

(** An implementation of [Cheerio] that knows the pages of [table]: each
    entry pairs a page's markup with what cheerio yields for it once the
    archive's toolbar and scripts are removed. *)
Definition table_parser (table : list (str * Document)) : Cheerio :=
  {| dom := Document;
     load := lookup table;
     remove := fun _ d => d;
     text := fun _ d => body_text d;
     each_html := fun _ d => script_bodies d;
     html_of := markup |}.

Definition LF : str := ["010"%char].

(** A page with the keyword [needle] once in the body text, once in a
    script of the head and once in a comment. *)
Definition page1 : str :=
  "<html><head><script>var k = 'needle';</script></head>" +++
  "<body><p>a needle in hay</p><!-- needle note --></body></html>".

Definition doc1 : Document :=
  {| body_text := "a needle in hay";
     script_bodies := [Some ("var k = 'needle';" : str)];
     markup := page1 |}.

(** A page whose comment has a line break before the keyword, next to a
    script with the same text. *)
Definition page2 : str :=
  "<html><head><script>x" +++ LF +++ "key</script></head>" +++
  "<body><!--x" +++ LF +++ "key--></body></html>".

Definition doc2 : Document :=
  {| body_text := [];
     script_bodies := [Some ("x" +++ LF +++ "key")];
     markup := page2 |}.

(** A page with an archive footer comment that contains the keyword. *)
Definition page3 : str :=
  "<html><head></head><body>aaa<!-- FILE ARCHIVED ON 2020 aaa --></body></html>".

Definition doc3 : Document :=
  {| body_text := "aaa"; script_bodies := []; markup := page3 |}.

(** A page for the keyword [a.b]. *)
Definition page4 : str :=
  "<html><head><script>axb A.B</script></head><body>axb a.b<!--axb--></body></html>".

Definition doc4 : Document :=
  {| body_text := "axb a.b";
     script_bodies := [Some ("axb A.B" : str)];
     markup := page4 |}.

Definition pages : Cheerio :=
  table_parser [(page1, doc1); (page2, doc2); (page3, doc3); (page4, doc4)].

(** Worlds for worked examples.  In [world1] the index knows one capture
    of [http://example.org/], whose replay is [page1], and the client
    stays connected.  In [world0] the index knows no capture.  In
    [world_down] the index cannot be reached.  In [world_blank] the index
    answers with a row of two empty strings.  In [world3] the index knows
    three captures and the client is gone when the second iteration
    starts. *)
Definition index_rows (rows : list jsval) : http jsval :=
  Response 200
    (Some (JArr (JArr [JStr "timestamp"; JStr "original"] :: rows))).

Definition capture (t : string) : jsval :=
  JArr [JStr t; JStr "http://example.org/"].

(** The text of the sample runtime for the exception a template
    literal raises on a value it cannot print. *)
Definition runtime_message (e : exn) : str :=
  "Cannot convert object to primitive value".

Definition world_of (index : http jsval) (connected_until : nat) : World :=
  {| cdx := fun _ => index;
     replay := fun _ _ => Response 200 (Some page1);
     connected := fun i => i <? connected_until;
     error_message := runtime_message |}.

Definition world1 : World := world_of (index_rows [capture "2020"]) 1.

Definition world0 : World := world_of (index_rows []) 1.

Definition world_down : World := world_of (Rejected NetworkError) 1.

Definition world_blank : World :=
  world_of (index_rows [JArr [JStr ""; JStr ""]]) 1.

Definition world3 : World :=
  world_of (index_rows [capture "2020"; capture "2021"; capture "2022"]) 1.

End Sample.

(** ** Reference definitions: literal, case-insensitive search *)

(** These definitions follow the specification's wording rather than the
    code: they use neither patterns nor [lastIndex], and the theorems of
    Part II compare [extractData] with them. *)

Module Literal.

Import Regex Extractor.

(** [keyword] is found at the head of [s], letter case aside. *)
Fixpoint prefix_ci (keyword s : str) : bool :=
  match keyword, s with
  | [], _ => true
  | _ :: _, [] => false
  | a :: keyword', b :: s' => Char.matches true a b && prefix_ci keyword' s'
  end.

(** Two strings that differ in letter case only. *)
Definition same_ci (keyword v : str) : Prop :=
  List.length v = List.length keyword /\ prefix_ci keyword v = true.

(** The first index at or after [i] where the keyword is found, [s] being
    the text from index [i] on. *)
Fixpoint find_first (keyword : str) (i : nat) (s : str) : option nat :=
  if prefix_ci keyword s then Some i
  else
    match s with
    | [] => None
    | _ :: s' => find_first keyword (S i) s'
    end.

(** All occurrences, left to right, each search resuming where the
    previous occurrence ended ([skip] counts the characters of that
    occurrence still to pass), and one position further after an empty
    occurrence. *)
Fixpoint lit_scan (keyword : str) (i skip : nat) (s : str) : list nat :=
  match s with
  | [] => if prefix_ci keyword [] then [i] else []
  | _ :: s' =>
      match skip with
      | S k => lit_scan keyword (S i) k s'
      | 0 =>
          if prefix_ci keyword s
          then i :: lit_scan keyword (S i) (List.length keyword - 1) s'
          else lit_scan keyword (S i) 0 s'
      end
  end.

Definition positions (keyword text : str) : list nat :=
  lit_scan keyword 0 0 text.

(** The width by which the search moves on after an occurrence. *)
Definition stride (keyword : str) : nat := Nat.max 1 (List.length keyword).


(** The pattern that matches [keyword] character by character. *)
Definition literal (keyword : str) : regex :=
  fold_right (fun c r => RSeq (RChar c) r) REmpty keyword.

Definition at_index (keyword : str) (i : nat) : match_result :=
  {| index := i; stop := i + List.length keyword |}.

(** The match reported for the occurrence at index [i] of a zone. *)
Definition found (keyword : str) (timestamp : jsval) (archiveUrl : str)
           (zone : MatchType) (text : str) (i : nat) : ScanMatch.t :=
  {| ScanMatch.timestamp := timestamp;
     ScanMatch.archiveUrl := archiveUrl;
     ScanMatch.matchType := zone;
     ScanMatch.snippet := zone_snippet zone text keyword (at_index keyword i) |}.

Definition zone_matches (keyword : str) (timestamp : jsval)
           (archiveUrl : str) (zone : MatchType) (text : str)
  : list ScanMatch.t :=
  map (found keyword timestamp archiveUrl zone text) (positions keyword text).

(** The script bodies that are searched: neither [null] nor empty. *)
Definition script_texts (bodies : list (option str)) : list str :=
  flat_map (fun body => match body with
                        | Some ((_ :: _) as content) => [content]
                        | _ => []
                        end) bodies.

(** The successive results of [exec] in a loop over a pattern, whatever
    the loop's body does; [None] when the fuel runs out. *)
Fixpoint matches_from (fuel : nat) (ignoreCase : bool) (r : regex)
         (text : str) (guard : bool) (lastIndex : nat)
  : option (list match_result) :=
  match fuel with
  | 0 => None
  | S f =>
      match exec ignoreCase r text lastIndex with
      | (None, _) => Some []
      | (Some m, li) =>
          option_map (cons m)
            (matches_from f ignoreCase r text guard
               (if guard && (index m =? li) then S li else li))
      end
  end.

(** The comment spans of a serialized page, in the order the loop over
    [commentRegex] meets them. *)
Definition comment_matches (htmlString : str) : list match_result :=
  match matches_from (loop_fuel htmlString) false commentRegex htmlString
          false 0 with
  | Some ms => ms
  | None => []
  end.

Definition comments (htmlString : str) : list str :=
  map (group1 htmlString) (comment_matches htmlString).

Definition archived (comment : str) : bool :=
  Str.includes "FILE ARCHIVED ON" comment.

Definition scanned_comments (htmlString : str) : list str :=
  filter (fun c => negb (archived c)) (comments htmlString).

Section WithParser.

Context {parser : Cheerio}.

(** The document [extractData] searches: loaded, with the archive's
    toolbar and scripts removed. *)
Definition cleaned (html : str) : dom :=
  remove (ByTagAttrContains "script" "src" "archive.org")
    (remove (ByIds ["wm-ipp-base" : str; "wm-ipp" : str; "donato" : str])
       (load html)).

Definition text_zone (html : str) : str :=
  Str.trim (Str.collapse_spaces (text (ByTag "body") (cleaned html))).

Definition script_zones (html : str) : list str :=
  script_texts (each_html (ByTag "script") (cleaned html)).

Definition comment_zones (html : str) : list str :=
  scanned_comments (html_of (cleaned html)).

(** Extraction as the specification describes it: the TEXT matches, then
    the JS matches script by script, then the COMMENT matches comment by
    comment. *)
Definition extract_literal (html keyword : str) (timestamp : jsval)
           (archiveUrl : str) : list ScanMatch.t :=
  zone_matches keyword timestamp archiveUrl TEXT (text_zone html)
  ++ flat_map (zone_matches keyword timestamp archiveUrl JS)
       (script_zones html)
  ++ flat_map (zone_matches keyword timestamp archiveUrl COMMENT)
       (comment_zones html).

End WithParser.

(** A list of indexes in strictly increasing order. *)
Definition increasing (l : list nat) : Prop := StronglySorted lt l.

Definition zone_eqb (a b : MatchType) : bool :=
  match a, b with
  | TEXT, TEXT | JS, JS | COMMENT, COMMENT => true
  | _, _ => false
  end.

(** The matches of a result that were found in [zone]. *)
Definition of_zone (zone : MatchType) (ms : list ScanMatch.t)
  : list ScanMatch.t :=
  filter (fun m => zone_eqb (ScanMatch.matchType m) zone) ms.

End Literal.

(** ** Reference definitions: comment marks *)

Module Spans.

(** The mark that closes a comment. *)
Definition closing : str := "-->".

End Spans.

(** ** Reference definitions: a whole run of the handler *)

(** What the stream of a scan holds when the client stays connected and
    every snapshot can be printed, said snapshot by snapshot; the
    theorems of Part II compare [scan] with it. *)

Module Run.

Import Orchestrator.

Definition is_terminal (e : ScanEvent) : bool :=
  match e with
  | Complete _ | Error _ => true
  | _ => false
  end.

Definition is_match (e : ScanEvent) : bool :=
  match e with
  | MatchEvent _ => true
  | _ => false
  end.

Section WithParser.

Context {parser : Cheerio}.

(** The matches a snapshot contributes: those of its page, and none when
    the inner [try] block throws. *)
Definition visit_matches (w : World) (keyword : str) (i : nat)
           (s : Snapshot.t) : list ScanMatch.t :=
  match visit w keyword i s (url_of s) with
  | Normal matches => matches
  | _ => []
  end.

(** One block per snapshot: its progress event, then its matches. *)
Fixpoint blocks (w : World) (keyword : str) (total i : nat)
         (snapshots : list Snapshot.t) : list ScanEvent :=
  match snapshots with
  | [] => []
  | s :: rest =>
      scanning_event total i (shown (Snapshot.timestamp s))
        :: map MatchEvent (visit_matches w keyword i s)
        ++ blocks w keyword total (S i) rest
  end.

End WithParser.

Definition closing_message (events : list ScanEvent) : str :=
  if existsb is_match events then "Scan complete."
  else "Scan finished. No matches found.".

(** A replay request that gives no page: it is rejected, its status is
    not a success, or its body cannot be read. *)
Definition replay_fails (r : http str) : bool :=
  match r with
  | Rejected _ => true
  | Response status body =>
      negb (ok status) || match body with None => true | Some _ => false end
  end.

(** The progress events of the snapshots, numbered from [i + 1]. *)
Fixpoint progress_only (total i : nat) (snapshots : list Snapshot.t)
  : list ScanEvent :=
  match snapshots with
  | [] => []
  | s :: rest =>
      scanning_event total i (shown (Snapshot.timestamp s))
        :: progress_only total (S i) rest
  end.

End Run.

(** ** More worlds for worked examples *)

Module MoreSamples.

(** The index knows two captures, every replay request is answered with
    status 404, and the client stays connected. *)
Definition world_404 : World :=
  {| cdx := fun _ => Sample.index_rows [Sample.capture "2020";
                                        Sample.capture "2021"];
     replay := fun _ _ => Response 404 None;
     connected := fun _ => true;
     error_message := Sample.runtime_message |}.

Definition request : Orchestrator.ScanRequest :=
  {| Orchestrator.domain := "example.org";
     Orchestrator.year := None;
     Orchestrator.keyword := "needle";
     Orchestrator.limit := 100 |}.





(** A timestamp that cannot be printed: the JSON object with the one
    key [toString]. *)
Definition unprintable : jsval := JObj [("toString" : str, JNum "1")].

(** The index knows three captures; the timestamp of the second cannot
    be printed.  The client stays connected. *)
Definition world_unprintable : World :=
  Sample.world_of
    (Sample.index_rows [Sample.capture "2020";
                        JArr [unprintable; JStr "http://example.org/"];
                        Sample.capture "2022"])
    3.


(** The index answers with rows that are not pairs of strings: a string,
    and an array with a single number. *)
Definition world_odd : World :=
  Sample.world_of (Sample.index_rows [JStr "ab"; JArr [JNum "5"]]) 1.

End MoreSamples.

(* ================================================================== *)
(** * Part II: theorems                                                *)
(* ================================================================== *)

Unset Implicit Arguments.

(** ** Compiling an escaped keyword *)

Section Compile.

Import Regex Extractor Literal.

Lemma classify_pattern_char (c : ascii) :
  is_syntax_char c = false -> classify c = TLit c.
Proof.
  unfold is_syntax_char, classify.
  repeat match goal with
         | |- context [if ?b then _ else _] => destruct b
         end; intros H; try discriminate H; reflexivity.
Qed.

Lemma escapeKeyword_cons (c : ascii) (keyword : str) :
  escapeKeyword (c :: keyword) =
  (if is_syntax_char c then ["\"%char; c] else [c]) ++ escapeKeyword keyword.
Proof. reflexivity. Qed.

Lemma escapeKeyword_length (keyword : str) :
  List.length keyword <= List.length (escapeKeyword keyword).
Proof.
  induction keyword as [|c keyword IH]; [apply Nat.le_refl|].
  rewrite escapeKeyword_cons, length_app.
  destruct (is_syntax_char c); simpl; lia.
Qed.

(** No quantifier follows an atom of an escaped keyword: what comes next
    is a backslash, a pattern character, or the end. *)
Lemma parse_quantifier_escaped (a : regex) (keyword : str) :
  parse_quantifier a (escapeKeyword keyword) = (a, escapeKeyword keyword).
Proof.
  destruct keyword as [|c keyword]; [reflexivity|].
  rewrite escapeKeyword_cons.
  destruct (is_syntax_char c) eqn:E; simpl.
  - reflexivity.
  - rewrite (classify_pattern_char c E). reflexivity.
Qed.

Lemma parse_alternative_step (f : nat) (c : ascii) (p : str) :
  parse_alternative (S f) (c :: p) =
  match classify c with
  | TBar | TRParen => Some (REmpty, c :: p)
  | _ =>
      match parse_term f (c :: p) with
      | Some (t, p') =>
          match parse_alternative f p' with
          | Some (r, p'') => Some (RSeq t r, p'')
          | None => None
          end
      | None => None
      end
  end.
Proof. reflexivity. Qed.

Lemma parse_term_escape (f : nat) (e : ascii) (p : str) :
  is_syntax_char e = true ->
  parse_term (S f) ("\"%char :: e :: p)
  = Some (parse_quantifier (RChar e) p).
Proof. intros E. cbn [parse_term]. change (classify "\") with TBackslash.
  cbv iota. rewrite E. reflexivity. Qed.

Lemma parse_term_char (f : nat) (c : ascii) (p : str) :
  is_syntax_char c = false ->
  parse_term (S f) (c :: p) = Some (parse_quantifier (RChar c) p).
Proof. intros E. cbn [parse_term]. rewrite (classify_pattern_char c E).
  reflexivity. Qed.

Lemma parse_alternative_escaped (keyword : str) :
  forall fuel, List.length keyword + 2 <= fuel ->
    parse_alternative fuel (escapeKeyword keyword) = Some (literal keyword, []).
Proof.
  induction keyword as [|c keyword IH]; intros fuel Hfuel.
  - destruct fuel; [simpl in Hfuel; lia | reflexivity].
  - destruct fuel as [|f]; [simpl in Hfuel; lia|].
    destruct f as [|f']; [simpl in Hfuel; lia|].
    assert (Hrest : parse_alternative (S f') (escapeKeyword keyword)
                    = Some (literal keyword, []))
      by (apply IH; simpl in Hfuel; lia).
    rewrite escapeKeyword_cons.
    destruct (is_syntax_char c) eqn:E; cbn [app].
    + rewrite parse_alternative_step.
      change (classify "\") with TBackslash. cbv iota.
      rewrite parse_term_escape by exact E.
      rewrite parse_quantifier_escaped, Hrest.
      reflexivity.
    + rewrite parse_alternative_step, (classify_pattern_char c E).
      rewrite parse_term_char by exact E.
      rewrite parse_quantifier_escaped, Hrest.
      reflexivity.
Qed.

(** [new RegExp(escapedKeyword, 'gi')] never throws, and the pattern it
    builds is the keyword read character by character. *)
Lemma compile_escaped (keyword : str) :
  RegExp_new (escapeKeyword keyword) = Normal (literal keyword).
Proof.
  unfold RegExp_new.
  pose proof (escapeKeyword_length keyword) as Hlen.
  remember (3 * List.length (escapeKeyword keyword) + 3) as fuel eqn:Hfuel.
  destruct fuel as [|f]; [lia|].
  cbn [parse_disjunction].
  rewrite parse_alternative_escaped by lia.
  reflexivity.
Qed.

End Compile.

(** ** The matcher never moves backwards *)

Section Matching.

Import Regex Extractor Literal.

Lemma shrinking_Some : shrinking Some.
Proof. intros s res H. injection H as ->. apply Nat.le_refl. Qed.

Lemma star_loop_shrinks iter greedy k :
  (forall s k' res, shrinking k' -> iter s k' = Some res ->
                    List.length res <= List.length s) ->
  shrinking k ->
  forall fuel, shrinking (star_loop iter greedy k fuel).
Proof.
  intros Hiter Hk fuel.
  induction fuel as [|f IH]; intros s res H; cbn [star_loop] in H.
  - exact (Hk _ _ H).
  - assert (Hagain : shrinking
              (fun s' => if List.length s' <? List.length s
                         then star_loop iter greedy k f s' else None)).
    { intros s' res' H'.
      destruct (List.length s' <? List.length s); [exact (IH _ _ H') | discriminate]. }
    destruct greedy.
    + destruct (iter s _) as [e|] eqn:E.
      * injection H as <-. exact (Hiter _ _ _ Hagain E).
      * exact (Hk _ _ H).
    + destruct (k s) as [e|] eqn:E.
      * injection H as <-. exact (Hk _ _ E).
      * exact (Hiter _ _ _ Hagain H).
Qed.

Lemma rmatch_shrinks ignoreCase n (r : regex) :
  forall s k res, shrinking k -> rmatch ignoreCase n r s k = Some res ->
                  List.length res <= List.length s.
Proof.
  induction r as [|c|p| | |r1 IH1 r2 IH2|r1 IH1 r2 IH2|greedy r IH];
    intros s k res Hk H; cbn [rmatch] in H.
  - exact (Hk _ _ H).
  - destruct s as [|x s']; [discriminate|].
    destruct (Char.matches ignoreCase c x); [|discriminate].
    apply Hk in H. simpl. lia.
  - destruct s as [|x s']; [discriminate|].
    destruct (p x); [|discriminate].
    apply Hk in H. simpl. lia.
  - destruct (List.length s =? n); [exact (Hk _ _ H) | discriminate].
  - destruct s; [exact (Hk _ _ H) | discriminate].
  - apply (IH1 _ _ _) in H; [exact H|].
    intros s' res' H'. exact (IH2 _ _ _ Hk H').
  - destruct (rmatch ignoreCase n r1 s k) as [e|] eqn:E.
    + injection H as <-. exact (IH1 _ _ _ Hk E).
    + exact (IH2 _ _ _ Hk H).
  - exact (star_loop_shrinks _ greedy _ IH Hk _ _ _ H).
Qed.

Lemma starts_with_char_consuming ignoreCase c r :
  consuming ignoreCase (RSeq (RChar c) r).
Proof.
  intros n s res H. cbn [rmatch] in H.
  destruct s as [|x s']; [discriminate|].
  destruct (Char.matches ignoreCase c x); [|discriminate].
  apply rmatch_shrinks in H; [simpl; lia | exact shrinking_Some].
Qed.

Lemma commentRegex_consuming : consuming false commentRegex.
Proof. apply starts_with_char_consuming. Qed.

Lemma search_bounds ignoreCase n r :
  forall s m, List.length s <= n -> search ignoreCase n r s = Some m ->
    n - List.length s <= index m /\ index m <= stop m /\ stop m <= n.
Proof.
  induction s as [|c s IH]; intros m Hn H; cbn [search] in H.
  - destruct (rmatch ignoreCase n r [] Some) as [rest|] eqn:E; [|discriminate].
    injection H as <-. apply rmatch_shrinks in E; [|exact shrinking_Some].
    simpl in *. lia.
  - destruct (rmatch ignoreCase n r (c :: s) Some) as [rest|] eqn:E.
    + injection H as <-. apply rmatch_shrinks in E; [|exact shrinking_Some].
      simpl in *. lia.
    + simpl in Hn. destruct (IH m ltac:(lia) H) as (H1 & H2 & H3).
      simpl. lia.
Qed.

Lemma search_consuming ignoreCase n r :
  consuming ignoreCase r ->
  forall s m, List.length s <= n -> search ignoreCase n r s = Some m ->
    index m < stop m.
Proof.
  intros Hr. induction s as [|c s IH]; intros m Hn H; cbn [search] in H.
  - destruct (rmatch ignoreCase n r [] Some) as [rest|] eqn:E; [|discriminate].
    apply Hr in E. simpl in E. lia.
  - destruct (rmatch ignoreCase n r (c :: s) Some) as [rest|] eqn:E.
    + injection H as <-. apply Hr in E. simpl in *. lia.
    + simpl in Hn. apply IH; [lia | exact H].
Qed.

Lemma exec_Some ignoreCase r text lastIndex m li :
  exec ignoreCase r text lastIndex = (Some m, li) ->
  lastIndex <= List.length text /\
  search ignoreCase (List.length text) r (skipn lastIndex text) = Some m /\
  li = stop m.
Proof.
  unfold exec. destruct (List.length text <? lastIndex) eqn:E; [discriminate|].
  apply Nat.ltb_ge in E.
  destruct (search _ _ _ _) as [m'|]; [|discriminate].
  intros H. injection H as -> <-. auto.
Qed.

Lemma exec_bounds ignoreCase r text lastIndex m li :
  exec ignoreCase r text lastIndex = (Some m, li) ->
  lastIndex <= index m /\ index m <= stop m /\
  stop m <= List.length text /\ li = stop m.
Proof.
  intros H. apply exec_Some in H. destruct H as (HL & Hs & ->).
  apply search_bounds in Hs; rewrite length_skipn in *; lia.
Qed.

Lemma exec_consuming ignoreCase r text lastIndex m li :
  consuming ignoreCase r ->
  exec ignoreCase r text lastIndex = (Some m, li) -> index m < stop m.
Proof.
  intros Hr H. apply exec_Some in H. destruct H as (HL & Hs & ->).
  apply (search_consuming _ _ _ Hr) in Hs; [exact Hs|].
  rewrite length_skipn. lia.
Qed.

(** ** Loops over [exec] come to an end *)

Lemma matches_from_total ignoreCase r text guard :
  guard = true \/ consuming ignoreCase r ->
  forall fuel lastIndex,
    1 <= fuel -> List.length text + 2 <= fuel + lastIndex ->
    exists ms, matches_from fuel ignoreCase r text guard lastIndex = Some ms.
Proof.
  intros Hprogress.
  induction fuel as [|f IH]; intros L H1 Hfuel; [lia|].
  cbn [matches_from].
  destruct (exec ignoreCase r text L) as [[m|] li] eqn:E; [|eauto].
  pose proof (exec_bounds _ _ _ _ _ _ E) as (Ha & Hb & Hc & ->).
  assert (Hnext : L < (if guard && (index m =? stop m) then S (stop m)
                       else stop m)).
  { destruct Hprogress as [-> | Hr].
    - cbn [andb]. destruct (index m =? stop m) eqn:Q.
      + lia.
      + apply Nat.eqb_neq in Q. lia.
    - pose proof (exec_consuming _ _ _ _ _ _ Hr E).
      destruct (guard && (index m =? stop m)); lia. }
  destruct (IH (if guard && (index m =? stop m) then S (stop m) else stop m))
    as [ms ->]; [lia | lia |].
  simpl. eauto.
Qed.

(** A loop whose matches are [ms] runs its body on them in turn. *)
Lemma exec_loop_each {A : Type} ignoreCase r text guard
      (body : A -> match_result -> completion A) :
  forall fuel lastIndex ms acc,
    matches_from fuel ignoreCase r text guard lastIndex = Some ms ->
    exec_loop fuel ignoreCase r text guard body lastIndex acc
    = each body ms acc.
Proof.
  induction fuel as [|f IH]; intros L ms acc H; [discriminate|].
  cbn [matches_from] in H. cbn [exec_loop].
  destruct (exec ignoreCase r text L) as [[m|] li].
  - destruct (matches_from f _ _ _ _ _) as [ms'|] eqn:E; [|discriminate].
    injection H as <-. cbn [each].
    destruct (body acc m) as [acc'| |]; cbn [bind]; [|reflexivity..].
    apply IH. exact E.
  - injection H as <-. reflexivity.
Qed.

End Matching.

(** ** The compiled keyword against literal search *)

Section LiteralSearch.

Import Regex Extractor Literal.

Variable keyword : str.

Lemma prefix_ci_length :
  forall kw s, prefix_ci kw s = true -> List.length kw <= List.length s.
Proof.
  induction kw as [|a kw IH]; intros s H; [simpl; lia|].
  destruct s as [|b s]; [discriminate|].
  simpl in H. apply andb_prop in H. destruct H as [_ H].
  apply IH in H. simpl. lia.
Qed.

Lemma prefix_ci_nil : prefix_ci keyword [] = true -> keyword = [].
Proof. destruct keyword; [reflexivity | discriminate]. Qed.

Lemma prefix_ci_app :
  forall kw v rest, List.length v = List.length kw ->
    prefix_ci kw (v ++ rest) = prefix_ci kw v.
Proof.
  induction kw as [|a kw IH]; intros v rest H; [reflexivity|].
  destruct v as [|b v]; [discriminate|].
  simpl. rewrite IH by (simpl in H; lia). reflexivity.
Qed.

(** The matcher on the literal pattern is a comparison of the keyword
    with the head of the input, letter case aside. *)
Lemma rmatch_literal n :
  forall kw s k,
    rmatch true n (literal kw) s k
    = if prefix_ci kw s then k (skipn (List.length kw) s) else None.
Proof.
  induction kw as [|a kw IH]; intros s k; [reflexivity|].
  cbn [literal fold_right rmatch].
  destruct s as [|b s]; [reflexivity|].
  cbn [prefix_ci List.length skipn].
  destruct (Char.matches true a b); [|reflexivity].
  apply IH.
Qed.

Lemma find_first_ge :
  forall s i j, find_first keyword i s = Some j -> i <= j.
Proof.
  induction s as [|c s IH]; intros i j H; cbn [find_first] in H.
  - destruct (prefix_ci keyword []); [injection H as <-; lia | discriminate].
  - destruct (prefix_ci keyword (c :: s)); [injection H as <-; lia|].
    apply IH in H. lia.
Qed.

Lemma search_literal n :
  forall s, List.length s <= n ->
    search true n (literal keyword) s
    = option_map (at_index keyword) (find_first keyword (n - List.length s) s).
Proof.
  induction s as [|c s IH]; intros Hn; cbn [search find_first];
    rewrite rmatch_literal.
  - destruct (prefix_ci keyword []) eqn:E; [|reflexivity].
    apply prefix_ci_nil in E. rewrite E. simpl. unfold at_index. simpl.
    do 2 f_equal. lia.
  - destruct (prefix_ci keyword (c :: s)) eqn:E.
    + apply prefix_ci_length in E. simpl. unfold at_index. do 2 f_equal.
      rewrite length_skipn. cbn [List.length] in *. lia.
    + simpl in Hn. rewrite IH by lia. simpl.
      replace (n - List.length s) with (S (n - S (List.length s))) by lia.
      reflexivity.
Qed.

Lemma exec_literal text lastIndex :
  lastIndex <= List.length text ->
  exec true (literal keyword) text lastIndex
  = match find_first keyword lastIndex (skipn lastIndex text) with
    | Some i => (Some (at_index keyword i), i + List.length keyword)
    | None => (None, 0)
    end.
Proof.
  intros HL. unfold exec.
  destruct (List.length text <? lastIndex) eqn:E;
    [apply Nat.ltb_lt in E; lia|].
  rewrite search_literal by (rewrite length_skipn; lia).
  rewrite length_skipn.
  replace (List.length text - (List.length text - lastIndex)) with lastIndex
    by lia.
  destruct (find_first keyword lastIndex (skipn lastIndex text));
    reflexivity.
Qed.

(** Passing over the rest of an occurrence. *)
Lemma lit_scan_skip :
  forall k s i, k <= List.length s ->
    lit_scan keyword i k s = lit_scan keyword (i + k) 0 (skipn k s).
Proof.
  induction k as [|k IH]; intros s i Hk.
  - rewrite Nat.add_0_r. reflexivity.
  - destruct s as [|c s]; [simpl in Hk; lia|].
    cbn [lit_scan skipn]. rewrite IH by (simpl in Hk; lia).
    f_equal. lia.
Qed.

Lemma lit_scan_find :
  forall s i,
    lit_scan keyword i 0 s
    = match find_first keyword i s with
      | None => []
      | Some j =>
          j :: (if j - i + stride keyword <=? List.length s
                then lit_scan keyword (j + stride keyword) 0
                       (skipn (j - i + stride keyword) s)
                else [])
      end.
Proof.
  unfold stride.
  induction s as [|c s IH]; intros i; cbn [lit_scan find_first].
  - destruct (prefix_ci keyword []); [|reflexivity].
    replace (i - i + Nat.max 1 (List.length keyword) <=? List.length (@nil ascii))
      with false; [reflexivity|].
    symmetry. apply Nat.leb_gt. cbn [List.length]. lia.
  - destruct (prefix_ci keyword (c :: s)) eqn:E.
    + apply prefix_ci_length in E.
      replace (i - i + Nat.max 1 (List.length keyword))
        with (S (List.length keyword - 1)) by lia.
      replace (S (List.length keyword - 1) <=? List.length (c :: s)) with true
        by (symmetry; apply Nat.leb_le; cbn [List.length] in *; lia).
      rewrite lit_scan_skip by (cbn [List.length] in *; lia).
      cbn [skipn]. do 2 f_equal. lia.
    + rewrite IH.
      destruct (find_first keyword (S i) s) as [j|] eqn:F; [|reflexivity].
      apply find_first_ge in F.
      replace (j - i + Nat.max 1 (List.length keyword))
        with (S (j - S i + Nat.max 1 (List.length keyword))) by lia.
      cbn [skipn List.length Nat.leb]. reflexivity.
Qed.

Lemma find_first_bound :
  forall s i j, find_first keyword i s = Some j ->
    j + List.length keyword <= i + List.length s.
Proof.
  induction s as [|c s IH]; intros i j H; cbn [find_first] in H.
  - destruct (prefix_ci keyword []) eqn:E; [|discriminate].
    injection H as <-. apply prefix_ci_length in E. lia.
  - destruct (prefix_ci keyword (c :: s)) eqn:E.
    + injection H as <-. apply prefix_ci_length in E. lia.
    + apply IH in H. cbn [List.length]. lia.
Qed.

(** The loop of a zone meets exactly the occurrences of the literal
    scan. *)
Lemma matches_from_literal text :
  forall fuel lastIndex,
    lastIndex <= List.length text ->
    List.length text + 2 <= fuel + lastIndex ->
    matches_from fuel true (literal keyword) text true lastIndex
    = Some (map (at_index keyword)
                (lit_scan keyword lastIndex 0 (skipn lastIndex text))).
Proof.
  induction fuel as [|f IH]; intros L HL Hfuel; [lia|].
  cbn [matches_from]. rewrite exec_literal by exact HL.
  rewrite lit_scan_find.
  destruct (find_first keyword L (skipn L text)) as [j|] eqn:F;
    [|reflexivity].
  pose proof (find_first_ge _ _ _ F) as Hge.
  pose proof (find_first_bound _ _ _ F) as Hle.
  rewrite length_skipn in Hle.
  cbn [index stop at_index andb].
  assert (Hnext : (if j =? j + List.length keyword
                   then S (j + List.length keyword)
                   else j + List.length keyword) = j + stride keyword).
  { unfold stride. destruct (j =? j + List.length keyword) eqn:Q.
    - apply Nat.eqb_eq in Q. lia.
    - apply Nat.eqb_neq in Q. lia. }
  rewrite Hnext, length_skipn.
  destruct (j - L + stride keyword <=? List.length text - L) eqn:Q.
  - apply Nat.leb_le in Q.
    rewrite IH by (unfold stride in *; lia).
    rewrite skipn_skipn.
    replace (j - L + stride keyword + L) with (j + stride keyword) by lia.
    reflexivity.
  - apply Nat.leb_gt in Q.
    destruct f as [|f']; [unfold stride in *; lia|].
    cbn [matches_from]. unfold exec.
    replace (List.length text <? j + stride keyword) with true
      by (symmetry; apply Nat.ltb_lt; lia).
    reflexivity.
Qed.

Lemma zone_loop_positions text :
  matches_from (loop_fuel text) true (literal keyword) text true 0
  = Some (map (at_index keyword) (positions keyword text)).
Proof.
  unfold loop_fuel, positions.
  rewrite matches_from_literal by lia. reflexivity.
Qed.

End LiteralSearch.

(** ** [extractData] zone by zone *)

Section Zones.

Import Regex Extractor Literal.

Context {parser : Cheerio}.

Variables (keyword : str) (timestamp : jsval) (archiveUrl : str).

Lemma each_push zone text :
  forall ms acc,
    each (push keyword timestamp archiveUrl zone text) ms acc
    = Normal (acc ++
              map (fun m =>
                     {| ScanMatch.timestamp := timestamp;
                        ScanMatch.archiveUrl := archiveUrl;
                        ScanMatch.matchType := zone;
                        ScanMatch.snippet := zone_snippet zone text keyword m |})
                  ms).
Proof.
  induction ms as [|m ms IH]; intros acc; cbn [each map].
  - rewrite app_nil_r. reflexivity.
  - unfold push at 1. cbn [bind]. rewrite IH, <- app_assoc. reflexivity.
Qed.

(** One zone: the matches pushed are those of the literal scan, in its
    order, after what the array already held. *)
Lemma scan_zone_literal zone text acc :
  scan_zone keyword timestamp archiveUrl zone text acc
  = Normal (acc ++ zone_matches keyword timestamp archiveUrl zone text).
Proof.
  unfold scan_zone. rewrite compile_escaped. cbn [bind].
  rewrite (exec_loop_each _ _ _ _ _ _ _ _ _ (zone_loop_positions keyword text)).
  rewrite each_push. unfold zone_matches. rewrite map_map. reflexivity.
Qed.

Lemma each_scan_script :
  forall bodies acc,
    each (scan_script keyword timestamp archiveUrl) bodies acc
    = Normal (acc ++ flat_map (zone_matches keyword timestamp archiveUrl JS)
                       (script_texts bodies)).
Proof.
  induction bodies as [|body bodies IH]; intros acc; cbn [each].
  - cbn. rewrite app_nil_r. reflexivity.
  - destruct body as [[|c content]|]; cbn [scan_script].
    + cbn [bind]. rewrite IH. reflexivity.
    + rewrite scan_zone_literal. cbn [bind]. rewrite IH.
      unfold script_texts. cbn [flat_map]. fold (script_texts bodies).
      rewrite <- !app_assoc. reflexivity.
    + cbn [bind]. rewrite IH. reflexivity.
Qed.

Lemma each_scan_comment htmlString :
  forall ms acc,
    each (scan_comment keyword timestamp archiveUrl htmlString) ms acc
    = Normal (acc ++ flat_map (zone_matches keyword timestamp archiveUrl COMMENT)
                       (filter (fun c => negb (archived c))
                               (map (group1 htmlString) ms))).
Proof.
  induction ms as [|m ms IH]; intros acc; cbn [each map filter].
  - cbn. rewrite app_nil_r. reflexivity.
  - unfold scan_comment at 1. unfold archived at 1.
    destruct (Str.includes "FILE ARCHIVED ON" (group1 htmlString m)).
    + cbn [bind negb]. apply IH.
    + rewrite scan_zone_literal. cbn [bind negb flat_map].
      rewrite IH, <- app_assoc. reflexivity.
Qed.

(** The loop over [commentRegex] always ends. *)
Lemma comment_loop_total htmlString :
  matches_from (loop_fuel htmlString) false commentRegex htmlString false 0
  = Some (comment_matches htmlString).
Proof.
  unfold comment_matches.
  destruct (matches_from_total false commentRegex htmlString false
              (or_intror commentRegex_consuming)
              (loop_fuel htmlString) 0) as [ms E];
    [unfold loop_fuel; lia | unfold loop_fuel; lia |].
  rewrite E. reflexivity.
Qed.

Lemma comment_loop_literal htmlString acc :
  exec_loop (loop_fuel htmlString) false commentRegex htmlString false
    (scan_comment keyword timestamp archiveUrl htmlString) 0 acc
  = Normal (acc ++ flat_map (zone_matches keyword timestamp archiveUrl COMMENT)
                     (scanned_comments htmlString)).
Proof.
  rewrite (exec_loop_each _ _ _ _ _ _ _ _ _ (comment_loop_total htmlString)).
  apply each_scan_comment.
Qed.

(** [extractData] returns, and returns what the specification's
    description of the three zones gives. *)
Lemma extractData_literal html :
  extractData html keyword timestamp archiveUrl
  = Normal (extract_literal html keyword timestamp archiveUrl).
Proof.
  unfold extractData, extract_literal.
  rewrite scan_zone_literal. cbn [bind app].
  rewrite each_scan_script. cbn [bind].
  rewrite comment_loop_literal. cbn [bind].
  rewrite <- app_assoc. reflexivity.
Qed.

End Zones.

(** ** Properties of the literal scan *)

Section ScanFacts.

Import Regex Extractor Literal.

Variable keyword : str.

Lemma lit_scan_lower :
  forall s i k p, In p (lit_scan keyword i k s) -> i <= p.
Proof.
  induction s as [|c s IH]; intros i k p H; cbn [lit_scan] in H.
  - destruct (prefix_ci keyword []); [|contradiction].
    destruct H as [<- | []]. lia.
  - destruct k as [|k].
    + destruct (prefix_ci keyword (c :: s)).
      * destruct H as [<- | H]; [lia|]. apply IH in H. lia.
      * apply IH in H. lia.
    + apply IH in H. lia.
Qed.

Lemma lit_scan_increasing :
  forall s i k, increasing (lit_scan keyword i k s).
Proof.
  unfold increasing.
  induction s as [|c s IH]; intros i k; cbn [lit_scan].
  - destruct (prefix_ci keyword []); repeat constructor.
  - destruct k as [|k]; [|apply IH].
    destruct (prefix_ci keyword (c :: s)); [|apply IH].
    constructor; [apply IH|].
    apply Forall_forall. intros p Hp. apply lit_scan_lower in Hp. lia.
Qed.

(** Every reported index is an occurrence of the keyword. *)
Lemma lit_scan_sound :
  forall s i k p, In p (lit_scan keyword i k s) ->
    prefix_ci keyword (skipn (p - i) s) = true.
Proof.
  induction s as [|c s IH]; intros i k p H; cbn [lit_scan] in H.
  - destruct (prefix_ci keyword []) eqn:E; [|contradiction].
    rewrite skipn_nil. exact E.
  - assert (Htail : forall k', In p (lit_scan keyword (S i) k' s) ->
                prefix_ci keyword (skipn (p - i) (c :: s)) = true).
    { intros k' Hin. pose proof (lit_scan_lower _ _ _ _ Hin) as Hlow.
      replace (p - i) with (S (p - S i)) by lia. cbn [skipn].
      exact (IH _ _ _ Hin). }
    destruct k as [|k]; [|exact (Htail _ H)].
    destruct (prefix_ci keyword (c :: s)) eqn:E; [|exact (Htail _ H)].
    destruct H as [<- | H]; [|exact (Htail _ H)].
    rewrite Nat.sub_diag. exact E.
Qed.

(** Every occurrence is reported, or lies within a reported one. *)
Lemma lit_scan_complete :
  forall s i k d,
    k <= d -> d <= List.length s ->
    prefix_ci keyword (skipn d s) = true ->
    exists p, In p (lit_scan keyword i k s) /\
              p <= i + d /\ i + d < p + stride keyword.
Proof.
  unfold stride.
  induction s as [|c s IH]; intros i k d Hk Hd H; cbn [lit_scan].
  - cbn [List.length] in Hd. assert (d = 0) as -> by lia.
    cbn [skipn] in H. rewrite H. exists i. split; [left; reflexivity | lia].
  - cbn [List.length] in Hd. destruct k as [|k].
    + destruct (prefix_ci keyword (c :: s)) eqn:E.
      * destruct (Nat.lt_ge_cases d (Nat.max 1 (List.length keyword)))
          as [Hin | Hout].
        -- exists i. split; [left; reflexivity | lia].
        -- destruct d as [|d]; [lia|]. cbn [skipn] in H.
           destruct (IH (S i) (List.length keyword - 1) d) as (p & Hp & H1 & H2);
             [lia | lia | exact H |].
           exists p. split; [right; exact Hp | lia].
      * destruct d as [|d]; [cbn [skipn] in H; congruence|].
        cbn [skipn] in H.
        destruct (IH (S i) 0 d) as (p & Hp & H1 & H2); [lia | lia | exact H|].
        exists p. split; [exact Hp | lia].
    + destruct d as [|d]; [lia|]. cbn [skipn] in H.
      destruct (IH (S i) k d) as (p & Hp & H1 & H2); [lia | lia | exact H|].
      exists p. split; [exact Hp | lia].
Qed.





(** Adjacent copies of the keyword, in any letter case: one match per
    copy, each where the previous one ended. *)
Lemma lit_scan_adjacent :
  keyword <> [] ->
  forall vs i,
    Forall (same_ci keyword) vs ->
    lit_scan keyword i 0 (List.concat vs)
    = map (fun j => i + j * List.length keyword) (seq 0 (List.length vs)).
Proof.
  intros Hne. induction vs as [|v vs IH]; intros i Hvs; cbn [List.concat].
  - cbn. destruct keyword; [contradiction | reflexivity].
  - inversion Hvs as [|v' vs' [Hlen Hpre] Hrest]; subst.
    destruct v as [|c v].
    { destruct keyword; [contradiction | discriminate]. }
    cbn [app lit_scan].
    change (c :: v ++ List.concat vs) with ((c :: v) ++ List.concat vs).
    rewrite prefix_ci_app by exact Hlen. rewrite Hpre.
    rewrite lit_scan_skip
      by (rewrite length_app; cbn [List.length] in Hlen; lia).
    replace (List.length keyword - 1) with (List.length v)
      by (cbn [List.length] in Hlen; lia).
    rewrite skipn_app, skipn_all, Nat.sub_diag. cbn [skipn app].
    rewrite IH by exact Hrest.
    cbn [List.length seq map]. f_equal; [lia|].
    rewrite <- seq_shift, map_map.
    apply map_ext. intros j.
    cbn [List.length] in Hlen. lia.
Qed.

End ScanFacts.

(** ** The order of the loop's matches *)

Section LoopOrder.

Import Regex Extractor Literal.

Lemma matches_from_increasing ignoreCase r text guard :
  guard = true \/ consuming ignoreCase r ->
  forall fuel lastIndex ms,
    matches_from fuel ignoreCase r text guard lastIndex = Some ms ->
    increasing (map index ms) /\ Forall (fun m => lastIndex <= index m) ms.
Proof.
  intros Hprogress. unfold increasing.
  induction fuel as [|f IH]; intros L ms H; [discriminate|].
  cbn [matches_from] in H.
  destruct (exec ignoreCase r text L) as [[m|] li] eqn:E.
  - destruct (matches_from f _ _ _ _ _) as [ms'|] eqn:F; [|discriminate].
    injection H as <-.
    pose proof (exec_bounds _ _ _ _ _ _ E) as (Ha & Hb & Hc & ->).
    apply IH in F. destruct F as [Hsorted Hlow].
    assert (Hnext : index m < (if guard && (index m =? stop m)
                               then S (stop m) else stop m)).
    { destruct Hprogress as [-> | Hr].
      - cbn [andb]. destruct (index m =? stop m) eqn:Q.
        + lia.
        + apply Nat.eqb_neq in Q. lia.
      - pose proof (exec_consuming _ _ _ _ _ _ Hr E).
        destruct (guard && (index m =? stop m)); lia. }
    split.
    + cbn [map]. constructor; [exact Hsorted|].
      apply Forall_map. eapply Forall_impl; [|exact Hlow].
      cbn beta. intros m' Hm'. lia.
    + constructor; [exact Ha|].
      eapply Forall_impl; [|exact Hlow]. cbn beta. intros m' Hm'. lia.
  - injection H as <-. split; constructor.
Qed.

Lemma comment_matches_increasing htmlString :
  increasing (map index (comment_matches htmlString)).
Proof.
  apply (matches_from_increasing false commentRegex htmlString false
           (or_intror commentRegex_consuming)
           (loop_fuel htmlString) 0).
  apply comment_loop_total.
Qed.

End LoopOrder.

(** ** The extractor's claims *)

Section ExtractorClaims.

Import Regex Extractor Literal.

Context {parser : Cheerio}.

Variables (keyword : str) (timestamp : jsval) (archiveUrl : str).

(** C5. The sequence returned by the extractor is: the TEXT matches, one
    per occurrence in the collapsed body text, in index order; then the
    JS matches, script by script in document order and by index within a
    script; then the COMMENT matches, comment by comment in the order of
    their position in the serialized page and by index within a
    comment. *)
Theorem extractData_zone_order (html : str) :
  extractData html keyword timestamp archiveUrl
  = Normal
      (map (found keyword timestamp archiveUrl TEXT (text_zone html))
           (positions keyword (text_zone html))
       ++ flat_map (fun script =>
                      map (found keyword timestamp archiveUrl JS script)
                          (positions keyword script))
            (script_texts (each_html (ByTag "script") (cleaned html)))
       ++ flat_map (fun comment =>
                      map (found keyword timestamp archiveUrl COMMENT comment)
                          (positions keyword comment))
            (filter (fun c => negb (archived c))
               (map (group1 (html_of (cleaned html)))
                    (comment_matches (html_of (cleaned html))))))
  /\ (forall text : str, increasing (positions keyword text))
  /\ increasing (map index (comment_matches (html_of (cleaned html)))).
Proof.
  split; [|split].
  - apply extractData_literal.
  - intros text. apply lit_scan_increasing.
  - apply comment_matches_increasing.
Qed.

(** C8. Whatever characters the keyword contains, the pattern built from
    it is the keyword read character by character; a zone's loop reports
    exactly the indexes of the literal, case-insensitive scan; every
    reported index is a place where the text equals the keyword, letter
    case aside; and every such place is reported or lies within a
    reported occurrence.  This holds in the three zones alike. *)
Theorem keyword_is_literal :
  RegExp_new (escapeKeyword keyword) = Normal (literal keyword)
  /\ (forall zone text acc,
        scan_zone keyword timestamp archiveUrl zone text acc
        = Normal (acc ++ map (found keyword timestamp archiveUrl zone text)
                            (positions keyword text)))
  /\ (forall html,
        extractData html keyword timestamp archiveUrl
        = Normal (extract_literal html keyword timestamp archiveUrl))
  /\ (forall text p,
        In p (positions keyword text) ->
        prefix_ci keyword (skipn p text) = true)
  /\ (forall text d,
        d <= List.length text ->
        prefix_ci keyword (skipn d text) = true ->
        exists p, In p (positions keyword text) /\
                  p <= d /\ d < p + stride keyword).
Proof.
  split; [|split; [|split; [|split]]].
  - apply compile_escaped.
  - intros zone text acc. apply scan_zone_literal.
  - intros html. apply extractData_literal.
  - intros text p Hp. apply lit_scan_sound in Hp.
    rewrite Nat.sub_0_r in Hp. exact Hp.
  - intros text d Hd H.
    destruct (lit_scan_complete keyword text 0 0 d) as (p & Hp & H1 & H2);
      [lia | exact Hd | exact H |].
    exists p. split; [exact Hp | lia].
Qed.

(** C7. A zone made of adjacent copies of a non-empty keyword, in any
    letter case, is searched to its end: the loop returns, with exactly
    one match per copy, found at the multiples of the keyword's
    length. *)
Theorem adjacent_occurrences_found (zone : MatchType) (copies : list str) :
  keyword <> [] ->
  Forall (same_ci keyword) copies ->
  exists ms,
    scan_zone keyword timestamp archiveUrl zone (List.concat copies) []
    = Normal ms
    /\ List.length ms = List.length copies
    /\ ms = map (found keyword timestamp archiveUrl zone (List.concat copies))
                (map (fun j => j * List.length keyword)
                     (seq 0 (List.length copies))).
Proof.
  intros Hne Hcopies.
  exists (zone_matches keyword timestamp archiveUrl zone (List.concat copies)).
  split; [apply (scan_zone_literal _ _ _ zone _ [])|].
  unfold zone_matches, positions.
  rewrite (lit_scan_adjacent keyword Hne copies 0 Hcopies).
  split; [|reflexivity].
  rewrite !length_map, length_seq. reflexivity.
Qed.

Lemma of_zone_app zone (a b : list ScanMatch.t) :
  of_zone zone (a ++ b) = of_zone zone a ++ of_zone zone b.
Proof. apply filter_app. Qed.

Lemma of_zone_zone_matches zone zone' text :
  of_zone zone (zone_matches keyword timestamp archiveUrl zone' text)
  = if zone_eqb zone' zone
    then zone_matches keyword timestamp archiveUrl zone' text else [].
Proof.
  unfold zone_matches, of_zone.
  induction (positions keyword text) as [|p ps IH]; cbn [map filter].
  - destruct (zone_eqb zone' zone); reflexivity.
  - cbn [found ScanMatch.matchType]. rewrite IH.
    destruct (zone_eqb zone' zone); reflexivity.
Qed.

Lemma of_zone_flat_map zone zone' texts :
  of_zone zone
    (flat_map (zone_matches keyword timestamp archiveUrl zone') texts)
  = if zone_eqb zone' zone
    then flat_map (zone_matches keyword timestamp archiveUrl zone') texts
    else [].
Proof.
  induction texts as [|t texts IH]; cbn [flat_map].
  - destruct (zone_eqb zone' zone); reflexivity.
  - rewrite of_zone_app, of_zone_zone_matches, IH.
    destruct (zone_eqb zone' zone); reflexivity.
Qed.

(** C10. A comment whose body contains the marker [FILE ARCHIVED ON] adds
    no match, whether or not the keyword occurs in it: the loop's body
    leaves the array as it was, and the COMMENT matches of a page are
    those of its other comments. *)
Theorem archive_comments_skipped :
  (forall htmlString matches commentMatch,
      Str.includes "FILE ARCHIVED ON" (group1 htmlString commentMatch) = true ->
      scan_comment keyword timestamp archiveUrl htmlString matches commentMatch
      = Normal matches)
  /\ (forall html, exists ms,
        extractData html keyword timestamp archiveUrl = Normal ms
        /\ of_zone COMMENT ms
           = flat_map (zone_matches keyword timestamp archiveUrl COMMENT)
               (filter (fun c => negb (Str.includes "FILE ARCHIVED ON" c))
                       (comments (html_of (cleaned html))))).
Proof.
  split.
  - intros htmlString matches commentMatch H.
    unfold scan_comment. rewrite H. reflexivity.
  - intros html. eexists. split; [apply extractData_literal|].
    unfold extract_literal.
    rewrite !of_zone_app, of_zone_zone_matches, !of_zone_flat_map.
    reflexivity.
Qed.

End ExtractorClaims.

(** ** Snippets *)

Section Snippets.

Import Regex Extractor Literal.

Lemma drop_while_incl p (s : str) :
  forall c, In c (Str.drop_while p s) -> In c s.
Proof.
  induction s as [|x s IH]; intros c H; cbn [Str.drop_while] in H.
  - contradiction.
  - destruct (p x); [right; apply IH; exact H | exact H].
Qed.

Lemma trim_incl (s : str) : forall c, In c (Str.trim s) -> In c s.
Proof.
  intros c H. unfold Str.trim in H.
  apply in_rev, drop_while_incl, in_rev, drop_while_incl in H. exact H.
Qed.

Lemma newlines_to_spaces_clean (s : str) :
  forall c, In c (Str.newlines_to_spaces s) -> Char.is_newline c = false.
Proof.
  intros c H. unfold Str.newlines_to_spaces in H.
  apply in_map_iff in H. destruct H as (x & <- & _).
  destruct (Char.is_newline x) eqn:E; [reflexivity | exact E].
Qed.

Lemma ellipsis_clean : forall c, In c ellipsis -> Char.is_newline c = false.
Proof.
  intros c H. cbn in H.
  repeat (destruct H as [<- | H]; [reflexivity|]). contradiction.
Qed.

(** The snippets of the TEXT and JS zones hold no line feed. *)
Lemma text_snippet_no_newline text keyword m :
  forall c, In c (text_snippet text keyword m) -> Char.is_newline c = false.
Proof.
  intros c H. unfold text_snippet in H.
  apply in_app_or in H. destruct H as [H | H]; [exact (ellipsis_clean c H)|].
  apply in_app_or in H. destruct H as [H | H]; [|exact (ellipsis_clean c H)].
  exact (newlines_to_spaces_clean _ c H).
Qed.

Lemma js_snippet_no_newline text keyword m :
  forall c, In c (js_snippet text keyword m) -> Char.is_newline c = false.
Proof.
  intros c H. unfold js_snippet in H.
  apply in_app_or in H. destruct H as [H | H]; [exact (ellipsis_clean c H)|].
  apply in_app_or in H. destruct H as [H | H]; [|exact (ellipsis_clean c H)].
  apply trim_incl in H. exact (newlines_to_spaces_clean _ c H).
Qed.

(** C6. On a page whose script and comment both read [x], a line feed,
    [key], a search for [key] returns a JS match whose snippet has a
    space in place of the line feed, and a COMMENT match whose snippet
    still has the line feed: the comment path trims the text and does not
    replace line feeds. *)
Theorem comment_snippet_keeps_newline :
  extractData (parser := Sample.pages) Sample.page2 "key" (JStr "2020") "u"
  = Normal
      [ {| ScanMatch.timestamp := JStr "2020";
           ScanMatch.archiveUrl := "u";
           ScanMatch.matchType := JS;
           ScanMatch.snippet := "...x key..." |};
        {| ScanMatch.timestamp := JStr "2020";
           ScanMatch.archiveUrl := "u";
           ScanMatch.matchType := COMMENT;
           ScanMatch.snippet := "...x" +++ Sample.LF +++ "key..." |} ].
Proof. vm_compute. reflexivity. Qed.

End Snippets.

(** ** Worked examples *)

Section Examples.

Import Regex Extractor Literal.

(** Unescaped, the dot of [a.b] is a wild card and the pattern matches
    [axb]. *)
Example unescaped_dot_matches :
  exists r, RegExp_new "a.b" = Normal r /\
            exec true r "axb" 0 = (Some {| index := 0; stop := 3 |}, 3).
Proof. eexists. split; vm_compute; reflexivity. Qed.

(** Escaped, it is a dot: on a page with [axb a.b] in the body, [axb A.B]
    in a script and [axb] in a comment, the keyword [a.b] is found once
    in the body, once in the script, and not in the comment. *)
Example escaped_dot_is_literal :
  extractData (parser := Sample.pages) Sample.page4 "a.b" (JStr "2020") "u"
  = Normal
      [ {| ScanMatch.timestamp := JStr "2020";
           ScanMatch.archiveUrl := "u";
           ScanMatch.matchType := TEXT;
           ScanMatch.snippet := "...axb a.b..." |};
        {| ScanMatch.timestamp := JStr "2020";
           ScanMatch.archiveUrl := "u";
           ScanMatch.matchType := JS;
           ScanMatch.snippet := "...axb A.B..." |} ].
Proof. vm_compute. reflexivity. Qed.

(** The body text [aaa] searched for [a]: three TEXT matches; the archive
    footer comment of the page, which holds [aaa] too, adds none. *)
Example aaa_three_matches :
  exists ms,
    extractData (parser := Sample.pages) Sample.page3 "a" (JStr "2020") "u"
    = Normal ms
    /\ map ScanMatch.matchType ms = [TEXT; TEXT; TEXT].
Proof. eexists. split; vm_compute; reflexivity. Qed.

Lemma adjacent_occurrences_found_witness :
  ("a" : str) <> [] /\
  Forall (same_ci "a") [("a" : str); ("A" : str); ("a" : str)] /\
  exists ms,
    scan_zone "a" (JStr "2020") "u" TEXT
      (List.concat [("a" : str); ("A" : str); ("a" : str)]) []
    = Normal ms
    /\ List.length ms = 3
    /\ ms = map (found "a" (JStr "2020") "u" TEXT
                   (List.concat [("a" : str); ("A" : str); ("a" : str)]))
                (map (fun j => j * 1) (seq 0 3)).
Proof.
  assert (Hne : ("a" : str) <> []) by discriminate.
  assert (Hcopies : Forall (same_ci "a")
                      [("a" : str); ("A" : str); ("a" : str)])
    by (repeat constructor).
  split; [exact Hne | split; [exact Hcopies|]].
  exact (adjacent_occurrences_found "a" (JStr "2020") "u" TEXT
           [("a" : str); ("A" : str); ("a" : str)] Hne Hcopies).
Defined.

Lemma keyword_is_literal_witness :
  In 4 (positions "a.b" "axb A.b") /\
  prefix_ci "a.b" (skipn 4 ("axb A.b" : str)) = true.
Proof.
  assert (H : In 4 (positions "a.b" "axb A.b")) by (left; reflexivity).
  split; [exact H|].
  exact (proj1 (proj2 (proj2 (proj2
           (keyword_is_literal (parser := Sample.pages)
              "a.b" (JStr "2020") "u")))) "axb A.b" 4 H).
Defined.

Lemma archive_comments_skipped_witness :
  Str.includes "FILE ARCHIVED ON"
    (group1 "<!-- FILE ARCHIVED ON 2020 aaa -->" {| index := 0; stop := 34 |})
  = true /\
  scan_comment "a" (JStr "2020") "u" "<!-- FILE ARCHIVED ON 2020 aaa -->" []
    {| index := 0; stop := 34 |}
  = Normal [].
Proof.
  assert (H : Str.includes "FILE ARCHIVED ON"
                (group1 "<!-- FILE ARCHIVED ON 2020 aaa -->"
                        {| index := 0; stop := 34 |}) = true)
    by reflexivity.
  split; [exact H|].
  exact (proj1 (archive_comments_skipped (parser := Sample.pages)
                  "a" (JStr "2020") "u")
           "<!-- FILE ARCHIVED ON 2020 aaa -->" [] {| index := 0; stop := 34 |} H).
Defined.

End Examples.

(** ** The index client *)

Section IndexClientFacts.

Import IndexClient.

Lemma to_snapshot_iterable row :
  iterable row = true -> exists s, to_snapshot row = Normal s.
Proof.
  destruct row; intros H; try discriminate H; cbn; eauto.
Qed.

Lemma to_snapshot_not_iterable row :
  iterable row = false -> to_snapshot row = Throw TypeError.
Proof.
  destruct row; intros H; try discriminate H; reflexivity.
Qed.

(** Mapping over rows returns or throws; it never hangs. *)
Lemma map_throwing_to_snapshot rows :
  (exists l, map_throwing to_snapshot rows = Normal l) \/
  (exists e, map_throwing to_snapshot rows = Throw e).
Proof.
  induction rows as [|row rows IH]; cbn [map_throwing]; [left; eauto|].
  destruct (iterable row) eqn:E.
  - destruct (to_snapshot_iterable row E) as [s ->]. cbn [bind].
    destruct IH as [[l ->] | [e ->]]; cbn [bind]; eauto.
  - rewrite (to_snapshot_not_iterable row E). cbn [bind]. eauto.
Qed.

Lemma map_throwing_bad_row rows :
  existsb (fun row => negb (iterable row)) rows = true ->
  exists e, map_throwing to_snapshot rows = Throw e.
Proof.
  induction rows as [|row rows IH]; cbn [existsb map_throwing];
    [discriminate|].
  intros H. destruct (iterable row) eqn:E.
  - cbn [negb orb] in H. destruct (to_snapshot_iterable row E) as [s ->].
    destruct (IH H) as [e ->]. cbn [bind]. eauto.
  - rewrite (to_snapshot_not_iterable row E). cbn [bind]. eauto.
Qed.

Lemma request_returns_or_throws w params :
  (exists l, request w params = Normal l) \/
  (exists e, request w params = Throw e).
Proof.
  unfold request.
  destruct (cdx w params) as [e | status body]; [eauto|].
  destruct (negb (ok status)); [eauto|].
  destruct body as [data|]; cbn [bind]; [|eauto].
  destruct data; eauto.
  destruct (List.length items <=? 1); [eauto|].
  apply map_throwing_to_snapshot.
Qed.

Lemma request_failure w params :
  index_failure (cdx w params) = true ->
  request w params = Normal [] \/ exists e, request w params = Throw e.
Proof.
  unfold request, index_failure.
  destruct (cdx w params) as [e | status body]; [eauto|].
  destruct (negb (ok status)); [eauto|]. cbn [orb].
  destruct body as [data|]; cbn [bind]; [|eauto].
  destruct data; eauto.
  destruct (List.length items <=? 1); [eauto|].
  intros H. right. apply map_throwing_bad_row. exact H.
Qed.

Lemma fetchSnapshots_header_only w domain year limit :
  cdx w (build_query domain year limit) = header_only ->
  fetchSnapshots w domain year limit = Normal [].
Proof.
  intros H. unfold fetchSnapshots, request. rewrite H. reflexivity.
Qed.

Lemma to_snapshot_mirror row :
  iterable row = true -> to_snapshot row = Normal (row_snapshot row).
Proof.
  destruct row; intros H; try discriminate H; reflexivity.
Qed.

(** Rows that can all be destructured are forwarded one by one. *)
Lemma map_throwing_iterable rows :
  Forall (fun row => iterable row = true) rows ->
  map_throwing to_snapshot rows = Normal (map row_snapshot rows).
Proof.
  induction 1 as [|row rows Hrow _ IH]; [reflexivity|].
  cbn [map_throwing map]. rewrite (to_snapshot_mirror row Hrow), IH.
  reflexivity.
Qed.

Lemma map_throwing_mirror :
  forall rows l,
    map_throwing to_snapshot rows = Normal l -> l = map row_snapshot rows.
Proof.
  induction rows as [|row rows IH]; intros l H; cbn [map_throwing] in H.
  - injection H as <-. reflexivity.
  - destruct (iterable row) eqn:E.
    + rewrite (to_snapshot_mirror row E) in H. cbn [bind] in H.
      destruct (map_throwing to_snapshot rows) as [l'| |];
        cbn [bind] in H; try discriminate.
      injection H as <-. cbn [map]. rewrite (IH l' eq_refl). reflexivity.
    + rewrite (to_snapshot_not_iterable row E) in H. discriminate.
Qed.

Lemma fetchSnapshots_rows (w : World) (domain : str) (year : option str)
      (limit status : nat) (first : jsval) (rows : list jsval) :
  cdx w (build_query domain year limit)
  = Response status (Some (JArr (first :: rows))) ->
  ok status = true ->
  Forall (fun row => iterable row = true) rows ->
  fetchSnapshots w domain year limit = Normal (map row_snapshot rows).
Proof.
  intros Hcdx Hok Hrows.
  unfold fetchSnapshots, request. rewrite Hcdx, Hok. cbn [negb bind].
  destruct rows as [|row rows]; [reflexivity|].
  cbn [List.length Nat.leb skipn].
  rewrite map_throwing_iterable by exact Hrows. reflexivity.
Qed.

(** C4, as the code has it.  [fetchSnapshots] returns a list for every
    answer of the index: it neither throws nor hangs.  When the request
    fails (rejected by the network or by the timeout, a status that is
    not a success, a body that is not JSON, JSON that is not an array, a
    row after the first that cannot be destructured) the list is empty,
    which is also what the caller gets from an index that answers with
    the header row alone.  A successful array answer whose rows after the
    first can all be destructured is not taken for a failure, whatever
    the rows hold: each row is forwarded as a snapshot. *)
Theorem fetchSnapshots_never_throws (w : World) (domain : str)
        (year : option str) (limit : nat) :
  (exists l, fetchSnapshots w domain year limit = Normal l)
  /\ (index_failure (cdx w (build_query domain year limit)) = true ->
      fetchSnapshots w domain year limit = Normal []
      /\ forall w', cdx w' (build_query domain year limit) = header_only ->
                    fetchSnapshots w' domain year limit
                    = fetchSnapshots w domain year limit)
  /\ (forall status first rows,
        cdx w (build_query domain year limit)
        = Response status (Some (JArr (first :: rows))) ->
        ok status = true ->
        Forall (fun row => iterable row = true) rows ->
        fetchSnapshots w domain year limit = Normal (map row_snapshot rows)).
Proof.
  split; [|split].
  - unfold fetchSnapshots.
    destruct (request_returns_or_throws w (build_query domain year limit))
      as [[l ->] | [e ->]]; cbn [try_catch]; eauto.
  - intros H.
    assert (Hempty : fetchSnapshots w domain year limit = Normal []).
    { unfold fetchSnapshots.
      destruct (request_failure w (build_query domain year limit) H)
        as [-> | [e ->]]; reflexivity. }
    split; [exact Hempty|].
    intros w' Hw'. rewrite Hempty.
    apply fetchSnapshots_header_only. exact Hw'.
  - intros status first rows. apply fetchSnapshots_rows.
Qed.

Lemma fetchSnapshots_never_throws_witness :
  let header := JArr [JStr "timestamp"; JStr "original"] in
  let rows := [Sample.capture "2020"] in
  index_failure
    (cdx Sample.world_down (build_query "example.org" None 100)) = true
  /\ fetchSnapshots Sample.world_down "example.org" None 100 = Normal []
  /\ cdx Sample.world1 (build_query "example.org" None 100)
     = Response 200 (Some (JArr (header :: rows)))
  /\ ok 200 = true
  /\ Forall (fun row => iterable row = true) rows
  /\ fetchSnapshots Sample.world1 "example.org" None 100
     = Normal (map row_snapshot rows).
Proof.
  intros header rows.
  assert (H : index_failure
                (cdx Sample.world_down (build_query "example.org" None 100))
              = true) by reflexivity.
  assert (H1 : cdx Sample.world1 (build_query "example.org" None 100)
               = Response 200 (Some (JArr (header :: rows))))
    by reflexivity.
  assert (H2 : ok 200 = true) by reflexivity.
  assert (H3 : Forall (fun row => iterable row = true) rows)
    by (repeat constructor).
  split; [exact H|].
  split; [exact (proj1 (proj1 (proj2 (fetchSnapshots_never_throws
                                        Sample.world_down "example.org"
                                        None 100)) H))|].
  split; [exact H1 | split; [exact H2 | split; [exact H3|]]].
  exact (proj2 (proj2 (fetchSnapshots_never_throws Sample.world1
                         "example.org" None 100))
           200 header rows H1 H2 H3).
Defined.

(** Against C4 as stated: the index answers, after its header, with a
    string and with an array that holds a single number.  The answer is
    malformed, and the result is not empty: the string gives a snapshot
    of its first two characters, the array a snapshot whose original URL
    is [undefined]. *)
Lemma malformed_rows_are_forwarded :
  fetchSnapshots MoreSamples.world_odd "example.org" None 100
  = Normal [ {| Snapshot.timestamp := JStr "a";
                Snapshot.original := JStr "b" |};
             {| Snapshot.timestamp := JNum "5";
                Snapshot.original := JUndefined |} ]
  /\ fetchSnapshots MoreSamples.world_odd "example.org" None 100
     <> Normal [].
Proof. split; [reflexivity | discriminate]. Qed.

Lemma well_formed_iterable rows :
  Forall (fun row => well_formed_row row = true) rows ->
  Forall (fun row => iterable row = true) rows.
Proof.
  intros H. eapply Forall_impl; [|exact H].
  intros row Hrow. destruct row; try discriminate Hrow. reflexivity.
Qed.

Lemma row_snapshot_nonempty row :
  well_formed_row row = true ->
  nonempty_string (Snapshot.timestamp (row_snapshot row)) = true /\
  nonempty_string (Snapshot.original (row_snapshot row)) = true.
Proof.
  destruct row as [| | | | |items|]; try discriminate.
  destruct items as [|t [|o items]]; try discriminate.
  cbn. intros H. apply andb_prop in H. exact H.
Qed.

Lemma fetchSnapshots_mirror (w : World) (domain : str) (year : option str)
      (limit : nat) (l : list Snapshot.t) :
  fetchSnapshots w domain year limit = Normal l ->
  l = []
  \/ exists status first rows,
       cdx w (build_query domain year limit)
       = Response status (Some (JArr (first :: rows)))
       /\ ok status = true
       /\ l = map row_snapshot rows.
Proof.
  unfold fetchSnapshots, request.
  destruct (cdx w (build_query domain year limit)) as [e | status body];
    [intros H; injection H as <-; left; reflexivity|].
  destruct (ok status) eqn:Hok; cbn [negb];
    [|intros H; injection H as <-; left; reflexivity].
  destruct body as [data|]; cbn [bind];
    [|intros H; injection H as <-; left; reflexivity].
  destruct data as [| | | | |items|];
    try (intros H; injection H as <-; left; reflexivity).
  destruct items as [|first rows];
    [intros H; injection H as <-; left; reflexivity|].
  destruct rows as [|row rows];
    [intros H; injection H as <-; left; reflexivity|].
  cbn [List.length Nat.leb skipn].
  destruct (map_throwing to_snapshot (row :: rows)) as [l'|e|] eqn:E;
    cbn [try_catch]; intros H.
  - injection H as <-. right. exists status, first, (row :: rows).
    split; [reflexivity | split; [exact Hok|]].
    exact (map_throwing_mirror _ _ E).
  - injection H as <-. left. reflexivity.
  - discriminate.
Qed.

(** C9, as the code has it.  The sequence returned is empty, or it is
    made, row by row and in order, of the first two entries of the rows
    after the first of a successful array answer, with no check of what
    they hold: an absent entry is [undefined] and a string row gives its
    first two characters.  So both fields of every snapshot are non-empty
    strings whenever every such row starts with two non-empty strings,
    and not otherwise guaranteed. *)
Theorem snapshots_mirror_rows (w : World) (domain : str) (year : option str)
        (limit : nat) :
  exists l,
    fetchSnapshots w domain year limit = Normal l
    /\ (l = []
        \/ exists status first rows,
             cdx w (build_query domain year limit)
             = Response status (Some (JArr (first :: rows)))
             /\ ok status = true
             /\ l = map row_snapshot rows)
    /\ (forall status first rows,
          cdx w (build_query domain year limit)
          = Response status (Some (JArr (first :: rows))) ->
          ok status = true ->
          Forall (fun row => well_formed_row row = true) rows ->
          l = map row_snapshot rows
          /\ Forall (fun s =>
                       nonempty_string (Snapshot.timestamp s) = true /\
                       nonempty_string (Snapshot.original s) = true) l).
Proof.
  assert (Hwell : forall l status first rows,
            fetchSnapshots w domain year limit = Normal l ->
            cdx w (build_query domain year limit)
            = Response status (Some (JArr (first :: rows))) ->
            ok status = true ->
            Forall (fun row => well_formed_row row = true) rows ->
            l = map row_snapshot rows
            /\ Forall (fun s =>
                         nonempty_string (Snapshot.timestamp s) = true /\
                         nonempty_string (Snapshot.original s) = true) l).
  { intros l status first rows Hl Hcdx Hok Hrows.
    rewrite (fetchSnapshots_rows w domain year limit status first rows
               Hcdx Hok (well_formed_iterable rows Hrows)) in Hl.
    injection Hl as <-. split; [reflexivity|].
    apply Forall_map. eapply Forall_impl; [|exact Hrows].
    exact row_snapshot_nonempty. }
  assert (Hret : exists l, fetchSnapshots w domain year limit = Normal l).
  { unfold fetchSnapshots.
    destruct (request_returns_or_throws w (build_query domain year limit))
      as [[l ->] | [e ->]]; cbn [try_catch]; eauto. }
  destruct Hret as [l Hl]. exists l.
  split; [exact Hl | split].
  - exact (fetchSnapshots_mirror w domain year limit l Hl).
  - intros status first rows. exact (Hwell l status first rows Hl).
Qed.

Lemma snapshots_mirror_rows_witness :
  cdx Sample.world1 (build_query "example.org" None 100)
  = Response 200 (Some (JArr (JArr [JStr "timestamp"; JStr "original"]
                               :: [Sample.capture "2020"])))
  /\ ok 200 = true
  /\ Forall (fun row => well_formed_row row = true) [Sample.capture "2020"]
  /\ exists l,
       fetchSnapshots Sample.world1 "example.org" None 100 = Normal l
       /\ l = map row_snapshot [Sample.capture "2020"].
Proof.
  assert (H1 : cdx Sample.world1 (build_query "example.org" None 100)
               = Response 200
                   (Some (JArr (JArr [JStr "timestamp"; JStr "original"]
                                  :: [Sample.capture "2020"]))))
    by reflexivity.
  assert (H2 : ok 200 = true) by reflexivity.
  assert (H3 : Forall (fun row => well_formed_row row = true)
                      [Sample.capture "2020"])
    by (repeat constructor).
  split; [exact H1 | split; [exact H2 | split; [exact H3|]]].
  destruct (snapshots_mirror_rows Sample.world1 "example.org" None 100)
    as (l & Hl & _ & Hwell).
  exists l. split; [exact Hl|].
  exact (proj1 (Hwell 200 _ _ H1 H2 H3)).
Defined.

(** Against C9 as stated: the index answers with a row of two empty
    strings, and the snapshot returned has an empty timestamp and an
    empty original URL. *)
Lemma empty_fields_forwarded :
  fetchSnapshots Sample.world_blank "example.org" None 100
  = Normal [{| Snapshot.timestamp := JStr []; Snapshot.original := JStr [] |}]
  /\ nonempty_string (JStr []) = false.
Proof. split; reflexivity. Qed.

End IndexClientFacts.

(** ** The orchestrator *)

Section Printing.

Import Orchestrator.

(** Printing a value returns a text or raises [TypeError]. *)
Lemma to_string_outcome :
  forall v, (exists s, to_string v = Normal s) \/ to_string v = Throw TypeError.
Proof.
  fix IH 1. intros v.
  destruct v as [| | [|] | repr | s | items | fields]; cbn [to_string];
    try (left; eexists; reflexivity).
  - assert (Hitems :
      (exists parts,
         (fix each_item (l : list jsval) : completion (list str) :=
            match l with
            | [] => Normal []
            | x :: rest =>
                part <- match x with
                        | JUndefined | JNull => Normal []
                        | _ => to_string x
                        end ;;
                parts <- each_item rest ;;
                Normal (part :: parts)
            end) items = Normal parts)
      \/ (fix each_item (l : list jsval) : completion (list str) :=
            match l with
            | [] => Normal []
            | x :: rest =>
                part <- match x with
                        | JUndefined | JNull => Normal []
                        | _ => to_string x
                        end ;;
                parts <- each_item rest ;;
                Normal (part :: parts)
            end) items = Throw TypeError).
    { revert items. fix IHitems 1. intros items.
      destruct items as [|x rest]; [left; eexists; reflexivity|].
      destruct (IH x) as [[s Hs] | Hs];
        destruct (IHitems rest) as [[parts Hparts] | Hparts];
        destruct x; cbn [to_string] in Hs |- *;
        rewrite ?Hs, ?Hparts; cbn [bind];
        try (left; eexists; reflexivity);
        try (right; reflexivity);
        try rewrite Hparts; cbn [bind];
        try (left; eexists; reflexivity);
        try (right; reflexivity);
        try discriminate Hs. }
    destruct Hitems as [[parts ->] | ->]; cbn [bind];
      [left; eexists; reflexivity | right; reflexivity].
  - destruct (has_key "toString" fields);
      [right; reflexivity | left; eexists; reflexivity].
Qed.

Lemma convertible_shown (v : jsval) :
  convertible v = true -> to_string v = Normal (shown v).
Proof.
  unfold convertible, shown. destruct (to_string v); intros H;
    [reflexivity | discriminate | discriminate].
Qed.

Lemma not_convertible (v : jsval) :
  convertible v = false -> to_string v = Throw TypeError.
Proof.
  unfold convertible. destruct (to_string_outcome v) as [[s ->] | ->];
    [discriminate | reflexivity].
Qed.

Lemma prepare_convertible (total i : nat) (s : Snapshot.t) :
  convertible_snapshot s = true ->
  prepare total i s
  = Normal (url_of s, scanning_event total i (shown (Snapshot.timestamp s))).
Proof.
  unfold convertible_snapshot. intros H. apply andb_prop in H.
  destruct H as [Ht Ho]. unfold prepare, archive_url, url_of.
  rewrite (convertible_shown _ Ht), (convertible_shown _ Ho). reflexivity.
Qed.

Lemma prepare_not_convertible (total i : nat) (s : Snapshot.t) :
  convertible_snapshot s = false -> prepare total i s = Throw TypeError.
Proof.
  unfold convertible_snapshot, prepare, archive_url. intros H.
  destruct (convertible (Snapshot.timestamp s)) eqn:Ht.
  - cbn [andb] in H. rewrite (convertible_shown _ Ht), (not_convertible _ H).
    reflexivity.
  - rewrite (not_convertible _ Ht). reflexivity.
Qed.

(** What [prepare] yields when it returns. *)
Lemma prepare_Normal (total i : nat) (s : Snapshot.t) (url : str)
      (progress : ScanEvent) :
  prepare total i s = Normal (url, progress) ->
  convertible_snapshot s = true
  /\ url = url_of s
  /\ progress = scanning_event total i (shown (Snapshot.timestamp s)).
Proof.
  intros H. destruct (convertible_snapshot s) eqn:E.
  - rewrite (prepare_convertible total i s E) in H. injection H as <- <-.
    repeat split.
  - rewrite (prepare_not_convertible total i s E) in H. discriminate.
Qed.

End Printing.

Section OrchestratorFacts.

Import Extractor Literal IndexClient Orchestrator.

Context {parser : Cheerio}.

Variables (w : World) (keyword : str) (total : nat).

(** The events written so far are kept, and what follows does not depend
    on them. *)
Lemma scan_from_out :
  forall snapshots i foundAny out,
    scan_from w keyword total i snapshots foundAny out
    = (out ++ fst (scan_from w keyword total i snapshots foundAny []),
       snd (scan_from w keyword total i snapshots foundAny [])).
Proof.
  induction snapshots as [|s rest IH]; intros i foundAny out;
    cbn [scan_from].
  - cbn. rewrite app_nil_r. reflexivity.
  - destruct (negb (connected w i)); [cbn; rewrite app_nil_r; reflexivity|].
    destruct (prepare total i s) as [[url progress]|e|];
      [|cbn; rewrite app_nil_r; reflexivity..].
    destruct (visit w keyword i s url) as [matches|e|].
    + rewrite (IH (S i) _ ((out ++ [progress]) ++ map MatchEvent matches)).
      rewrite (IH (S i) _ (([] ++ [progress]) ++ map MatchEvent matches)).
      cbn [fst snd app]. rewrite <- !app_assoc. reflexivity.
    + rewrite (IH (S i) _ (out ++ [progress])).
      rewrite (IH (S i) _ ([] ++ [progress])).
      cbn [fst snd app]. rewrite <- !app_assoc. reflexivity.
    + cbn [fst snd app]. reflexivity.
Qed.

(** When the client is found gone at the top of the iteration that
    follows [done], the loop has written what it writes for [done]
    alone, and it is left as it is left on [done], the [return] standing
    for the end of the list. *)
Lemma scan_from_disconnect :
  forall done i foundAny out s rest,
    connected w (i + List.length done) = false ->
    scan_from w keyword total i (done ++ s :: rest) foundAny out
    = (fst (scan_from w keyword total i done foundAny out),
       match snd (scan_from w keyword total i done foundAny out) with
       | Finished _ => Disconnected
       | other => other
       end).
Proof.
  induction done as [|d done IH]; intros i foundAny out s rest Hgone.
  - cbn [List.length app] in *. rewrite Nat.add_0_r in Hgone.
    cbn [scan_from]. rewrite Hgone. reflexivity.
  - cbn [app scan_from].
    destruct (negb (connected w i)); [reflexivity|].
    assert (Hgone' : connected w (S i + List.length done) = false).
    { cbn [List.length] in Hgone.
      replace (S i + List.length done) with (i + S (List.length done)) by lia.
      exact Hgone. }
    destruct (prepare total i d) as [[url progress]|e|]; [|reflexivity..].
    destruct (visit w keyword i d url) as [matches|e|];
      [apply IH; exact Hgone' | apply IH; exact Hgone' | reflexivity].
Qed.

(** No exception leaves a loop over snapshots that can all be printed. *)
Lemma scan_from_not_failed :
  forall snapshots i foundAny out e,
    forallb convertible_snapshot snapshots = true ->
    snd (scan_from w keyword total i snapshots foundAny out) <> Failed e.
Proof.
  induction snapshots as [|s rest IH]; intros i foundAny out e H;
    cbn [scan_from]; [discriminate|].
  cbn [forallb] in H. apply andb_prop in H. destruct H as [Hs Hrest].
  destruct (negb (connected w i)); [discriminate|].
  rewrite (prepare_convertible total i s Hs).
  destruct (visit w keyword i s (url_of s)) as [matches|e'|];
    [apply IH; exact Hrest | apply IH; exact Hrest | discriminate].
Qed.

(** When one does leave the loop, some snapshot cannot be printed. *)
Lemma scan_from_failed :
  forall snapshots i foundAny out e,
    snd (scan_from w keyword total i snapshots foundAny out) = Failed e ->
    e = TypeError
    /\ exists s, In s snapshots /\ convertible_snapshot s = false.
Proof.
  induction snapshots as [|s rest IH]; intros i foundAny out e H;
    cbn [scan_from] in H; [discriminate|].
  destruct (negb (connected w i)); [discriminate|].
  destruct (convertible_snapshot s) eqn:Hs.
  - rewrite (prepare_convertible total i s Hs) in H.
    destruct (visit w keyword i s (url_of s)) as [matches|e'|];
      [apply IH in H | apply IH in H | discriminate];
      destruct H as (He & s' & Hin & Hs');
      (split; [exact He | exists s'; split; [right; exact Hin | exact Hs']]).
  - rewrite (prepare_not_convertible total i s Hs) in H.
    injection H as <-.
    split; [reflexivity | exists s; split; [left; reflexivity | exact Hs]].
Qed.

(** The loop writes progress events numbered from [i + 1] to
    [i + length snapshots], and matches. *)
Lemma scan_from_events :
  forall snapshots i foundAny,
    Forall (fun e => before_snapshot (i + List.length snapshots) e = true)
           (fst (scan_from w keyword total i snapshots foundAny [])).
Proof.
  induction snapshots as [|s rest IH]; intros i foundAny; cbn [scan_from].
  - constructor.
  - destruct (negb (connected w i)); [constructor|].
    assert (Hbound : i + List.length (s :: rest) = S i + List.length rest)
      by (cbn [List.length]; lia).
    destruct (prepare total i s) as [[url progress]|e|] eqn:P;
      [|constructor..].
    apply prepare_Normal in P. destruct P as (_ & _ & ->).
    assert (Hscan : before_snapshot (i + List.length (s :: rest))
                      (scanning_event total i (shown (Snapshot.timestamp s)))
                    = true).
    { cbn. apply Nat.leb_le. lia. }
    destruct (visit w keyword i s url) as [matches|e|].
    + rewrite scan_from_out. cbn [fst app].
      constructor; [exact Hscan|].
      apply Forall_app. split.
      * apply Forall_map, Forall_forall. reflexivity.
      * rewrite Hbound. apply IH.
    + rewrite scan_from_out. cbn [fst app].
      constructor; [exact Hscan|]. rewrite Hbound. apply IH.
    + cbn [fst app]. constructor; [exact Hscan | constructor].
Qed.

End OrchestratorFacts.

Section OrchestratorClaims.

Import Extractor Literal IndexClient Orchestrator.

Context {parser : Cheerio}.

(** C2. Whatever the snapshot list and whichever iteration finds the
    client gone: let [clientConnected] be false at the top of iteration
    [k], and call [seen] the two opening progress events followed by what
    the loop writes for the first [k] snapshots.  No event of [seen] is a
    terminal event or a progress event numbered above [k].  When the scan
    gets as far as iteration [k] (the snapshots before it can be printed)
    the stream is [seen] and nothing more, and the response is not ended.
    The one other course is that an exception has ended the scan before
    iteration [k]: the stream is then [seen] and an [error] event.  In
    neither case is there a [complete] event or any event for snapshot
    [k] or a later one. *)
Theorem disconnect_stops_stream (w : World) (req : ScanRequest)
        (snapshots : list Snapshot.t) (k : nat) :
  fetchSnapshots w (domain req) (year req) (limit req) = Normal snapshots ->
  k < List.length snapshots ->
  connected w k = false ->
  let seen :=
    [contacting_event req; analyzing_event req (List.length snapshots)]
      ++ fst (scan_from w (keyword req) (List.length snapshots) 0
                (firstn k snapshots) false []) in
  Forall (fun e => before_snapshot k e = true) seen
  /\ ((events (scan w req) = seen /\ ended (scan w req) = false)
      \/ (events (scan w req) = seen ++ [Error (error_message w TypeError)]
          /\ ended (scan w req) = true
          /\ exists s, In s (firstn k snapshots)
                       /\ convertible_snapshot s = false))
  /\ (forallb convertible_snapshot (firstn k snapshots) = true ->
      events (scan w req) = seen /\ ended (scan w req) = false).
Proof.
  intros Hfetch Hk Hgone. cbv zeta.
  assert (Hsplit : snapshots = firstn k snapshots ++ skipn k snapshots)
    by (symmetry; apply firstn_skipn).
  destruct (skipn k snapshots) as [|s rest] eqn:Hrest.
  { apply (f_equal (@List.length _)) in Hrest.
    rewrite length_skipn in Hrest. cbn in Hrest. lia. }
  assert (Hlen : List.length (firstn k snapshots) = k)
    by (apply firstn_length_le; lia).
  set (total := List.length snapshots) in *.
  set (header := [contacting_event req; analyzing_event req total]).
  pose proof (scan_from_disconnect w (keyword req) total
                (firstn k snapshots) 0 false header s rest) as Hloop.
  cbn [Nat.add] in Hloop. rewrite Hlen in Hloop.
  specialize (Hloop Hgone). rewrite <- Hsplit in Hloop.
  pose proof (scan_from_not_failed w (keyword req) total
                (firstn k snapshots) 0 false header) as Hfail.
  pose proof (scan_from_failed w (keyword req) total
                (firstn k snapshots) 0 false header) as Hfailed.
  assert (Hscan : scan w req
                  = match snd (scan_from w (keyword req) total 0
                                 (firstn k snapshots) false header) with
                    | Failed e =>
                        {| events :=
                             fst (scan_from w (keyword req) total 0
                                    (firstn k snapshots) false header)
                               ++ [Error (error_message w e)];
                           ended := true |}
                    | _ =>
                        {| events :=
                             fst (scan_from w (keyword req) total 0
                                    (firstn k snapshots) false header);
                           ended := false |}
                    end).
  { unfold scan. rewrite Hfetch.
    destruct (List.length snapshots =? 0) eqn:E;
      [apply Nat.eqb_eq in E; lia|].
    fold total. cbn [app]. fold header. rewrite Hloop.
    destruct (snd (scan_from w (keyword req) total 0 (firstn k snapshots)
                     false header)); reflexivity. }
  rewrite Hscan. clear Hscan Hloop.
  rewrite (scan_from_out w (keyword req) total (firstn k snapshots) 0 false
             header) in *.
  cbn [fst snd] in *.
  split; [|split].
  - apply Forall_app. split; [repeat constructor|].
    pose proof (scan_from_events w (keyword req) total
                  (firstn k snapshots) 0 false) as H.
    rewrite Hlen in H. exact H.
  - destruct (snd (scan_from w (keyword req) total 0 (firstn k snapshots)
                     false [])) as [|foundAny|e|];
      cbn [events ended]; [left; split; reflexivity.. | | left; split; reflexivity].
    right. destruct (Hfailed e eq_refl) as (-> & bad & Hin & Hbad).
    rewrite <- app_assoc.
    split; [reflexivity | split; [reflexivity|]].
    exists bad. split; assumption.
  - intros Hprint.
    destruct (snd (scan_from w (keyword req) total 0 (firstn k snapshots)
                     false [])) as [|foundAny|e|];
      cbn [events ended]; [split; reflexivity.. | | split; reflexivity].
    exfalso. exact (Hfail e Hprint eq_refl).
Qed.

(** C3, as the code has it.  When the index returns no snapshot the
    stream is the opening progress event followed by the [complete] event
    with the message [No snapshots found for this criteria.], and it is
    ended. *)
Theorem no_snapshots_stream (w : World) (req : ScanRequest) :
  fetchSnapshots w (domain req) (year req) (limit req) = Normal [] ->
  scan w req
  = {| events := [ Progress ("Contacting Wayback Machine for: "
                               +++ domain req +++ "...") None None;
                   Complete "No snapshots found for this criteria." ];
       ended := true |}.
Proof.
  intros H. unfold scan. rewrite H. reflexivity.
Qed.

End OrchestratorClaims.

Section OrchestratorExamples.

Import Extractor Literal IndexClient Orchestrator.

Lemma disconnect_stops_stream_witness :
  let req := {| domain := "example.org"; year := None;
                keyword := "needle"; limit := 100 |} in
  let snapshots := map row_snapshot [Sample.capture "2020";
                                     Sample.capture "2021";
                                     Sample.capture "2022"] in
  let seen :=
    [contacting_event req; analyzing_event req (List.length snapshots)]
      ++ fst (scan_from (parser := Sample.pages) Sample.world3 (keyword req)
                (List.length snapshots) 0 (firstn 1 snapshots) false []) in
  fetchSnapshots Sample.world3 "example.org" None 100 = Normal snapshots
  /\ 1 < List.length snapshots
  /\ connected Sample.world3 1 = false
  /\ forallb convertible_snapshot (firstn 1 snapshots) = true
  /\ Forall (fun e => before_snapshot 1 e = true) seen
  /\ events (scan (parser := Sample.pages) Sample.world3 req) = seen
  /\ ended (scan (parser := Sample.pages) Sample.world3 req) = false.
Proof.
  intros req snapshots seen.
  assert (H1 : fetchSnapshots Sample.world3 (domain req) (year req)
                 (limit req) = Normal snapshots) by reflexivity.
  assert (H2 : 1 < List.length snapshots) by (cbn; lia).
  assert (H3 : connected Sample.world3 1 = false) by reflexivity.
  assert (H4 : forallb convertible_snapshot (firstn 1 snapshots) = true)
    by reflexivity.
  split; [exact H1 | split; [exact H2 | split; [exact H3 | split;
    [exact H4|]]]].
  pose proof (disconnect_stops_stream (parser := Sample.pages)
                Sample.world3 req snapshots 1 H1 H2 H3) as H.
  split; [exact (proj1 H) | exact (proj2 (proj2 H) H4)].
Defined.

Lemma no_snapshots_stream_witness :
  let req := {| domain := "example.org"; year := None;
                keyword := "needle"; limit := 100 |} in
  fetchSnapshots Sample.world0 "example.org" None 100 = Normal []
  /\ scan (parser := Sample.pages) Sample.world0 req
     = {| events := [ Progress "Contacting Wayback Machine for: example.org..."
                               None None;
                      Complete "No snapshots found for this criteria." ];
          ended := true |}.
Proof.
  intros req.
  assert (H : fetchSnapshots Sample.world0 (domain req) (year req)
                (limit req) = Normal []) by reflexivity.
  split; [exact H|].
  exact (no_snapshots_stream (parser := Sample.pages) Sample.world0 req H).
Defined.

(** Against C3 as stated: the index returns its header row alone, and the
    stream holds two events, of which the first is a progress event. *)
Lemma no_snapshots_two_events :
  let req := {| domain := "example.org"; year := None;
                keyword := "needle"; limit := 100 |} in
  fetchSnapshots Sample.world0 "example.org" None 100 = Normal []
  /\ events (scan (parser := Sample.pages) Sample.world0 req)
     = [ Progress "Contacting Wayback Machine for: example.org..." None None;
         Complete "No snapshots found for this criteria." ]
  /\ List.length (events (scan (parser := Sample.pages) Sample.world0 req))
     <> 1.
Proof. cbv zeta. split; [reflexivity | split; [reflexivity | discriminate]]. Qed.

End OrchestratorExamples.

(** ** One snapshot, one occurrence in each zone *)

Section SingleSnapshot.

Import Extractor Literal IndexClient Orchestrator.

Context {parser : Cheerio}.

Variables (keyword : str) (timestamp : jsval) (archiveUrl : str).






End SingleSnapshot.

Section SingleSnapshotClaim.

Import Extractor Literal IndexClient Orchestrator.

Context {parser : Cheerio}.


End SingleSnapshotClaim.

Section SingleSnapshotExample.

Import Extractor Literal IndexClient Orchestrator.



End SingleSnapshotExample.

(** ** The window of a snippet *)

Section Window.

Import Regex Extractor Literal.

Lemma firstn_plus (m n : nat) :
  forall t : str, firstn (m + n) t = firstn m t ++ firstn n (skipn m t).
Proof.
  induction m as [|m IH]; intros t; [reflexivity|].
  destruct t as [|c t]; cbn [Nat.add firstn skipn app].
  - rewrite firstn_nil. reflexivity.
  - rewrite IH. reflexivity.
Qed.

Lemma substring_split (a b c : nat) (s : str) :
  a <= b -> b <= c ->
  Str.substring a c s = Str.substring a b s ++ Str.substring b c s.
Proof.
  intros Hab Hbc. unfold Str.substring.
  replace (c - a) with ((b - a) + (c - b)) by lia.
  rewrite firstn_plus, skipn_skipn.
  replace (b - a + a) with b by lia. reflexivity.
Qed.

Lemma substring_length (a b : nat) (s : str) :
  List.length (Str.substring a b s) <= b - a.
Proof. unfold Str.substring. apply firstn_le_length. Qed.

(** The window cut for an occurrence at index [p] is the occurrence with
    at most 30 characters before it and at most 30 after it. *)
Lemma window_around (text keyword : str) (p : nat) :
  p + List.length keyword <= List.length text ->
  exists before after : str,
    window text keyword (at_index keyword p)
    = before ++ Str.substring p (p + List.length keyword) text ++ after
    /\ List.length before <= 30 /\ List.length after <= 30.
Proof.
  intros Hp.
  exists (Str.substring (p - 30) p text),
         (Str.substring (p + List.length keyword)
            (Nat.min (List.length text) (p + List.length keyword + 30)) text).
  split; [|split].
  - unfold window, snippet_start, snippet_end, at_index. cbn [index].
    rewrite Nat.max_0_l.
    rewrite (substring_split (p - 30) p) by lia.
    rewrite (substring_split p (p + List.length keyword)) by lia.
    reflexivity.
  - pose proof (substring_length (p - 30) p text). lia.
  - pose proof (substring_length (p + List.length keyword)
                  (Nat.min (List.length text) (p + List.length keyword + 30))
                  text). lia.
Qed.

End Window.

(** ** Scenarios *)

Section Scenarios.

Import Extractor Literal IndexClient Orchestrator.

Let request : ScanRequest :=
  {| domain := "example.org"; year := None;
     keyword := "needle"; limit := 100 |}.

(** Three snapshots, and the client gone when the second iteration
    starts: the stream stops after the matches of the first snapshot. *)
Example disconnect_after_first_snapshot :
  map (before_snapshot 1)
      (events (scan (parser := Sample.pages) Sample.world3 request))
  = [true; true; true; true; true; true]
  /\ ended (scan (parser := Sample.pages) Sample.world3 request) = false.
Proof. split; vm_compute; reflexivity. Qed.

(** The index cannot be reached: the caller is told that no snapshot was
    found. *)
Example index_down :
  events (scan (parser := Sample.pages) Sample.world_down request)
  = [ Progress "Contacting Wayback Machine for: example.org..." None None;
      Complete "No snapshots found for this criteria." ].
Proof. reflexivity. Qed.

End Scenarios.

(** ** The loop is never left hanging *)

Section NeverHung.

Import Extractor Literal IndexClient Orchestrator.

Context {parser : Cheerio}.

Lemma visit_returns_or_throws (w : World) (keyword : str) (i : nat)
      (s : Snapshot.t) (url : str) :
  visit w keyword i s url <> Diverge.
Proof.
  unfold visit.
  destruct (replay w i url) as [e | status body]; [discriminate|].
  destruct (ok status); [|discriminate].
  destruct body as [page|]; [|discriminate].
  rewrite extractData_literal. discriminate.
Qed.

Lemma prepare_returns_or_throws (total i : nat) (s : Snapshot.t) :
  prepare total i s <> Diverge.
Proof.
  destruct (convertible_snapshot s) eqn:E.
  - rewrite (prepare_convertible total i s E). discriminate.
  - rewrite (prepare_not_convertible total i s E). discriminate.
Qed.

Lemma scan_from_not_hung (w : World) (keyword : str) (total : nat) :
  forall snapshots i foundAny out,
    snd (scan_from w keyword total i snapshots foundAny out) <> Hung.
Proof.
  induction snapshots as [|s rest IH]; intros i foundAny out;
    cbn [scan_from]; [discriminate|].
  destruct (negb (connected w i)); [discriminate|].
  pose proof (prepare_returns_or_throws total i s) as Hprepare.
  destruct (prepare total i s) as [[url progress]|e|];
    [|discriminate | contradiction].
  pose proof (visit_returns_or_throws w keyword i s url) as Hvisit.
  destruct (visit w keyword i s url) as [matches|e|];
    [apply IH | apply IH | contradiction].
Qed.

End NeverHung.

(** ** Further properties of the loops over [exec] *)

Section LoopBounds.

Import Regex Extractor Literal.

Lemma each_no_diverge {A B : Type} (body : A -> B -> completion A) :
  (forall a m, body a m <> Diverge) ->
  forall ms acc, each body ms acc <> Diverge.
Proof.
  intros Hbody. induction ms as [|m ms IH]; intros acc; cbn [each];
    [discriminate|].
  pose proof (Hbody acc m) as Hm.
  destruct (body acc m) as [acc'| |]; cbn [bind];
    [apply IH | discriminate | contradiction].
Qed.

Lemma matches_from_stop ignoreCase r text guard :
  forall fuel lastIndex ms,
    matches_from fuel ignoreCase r text guard lastIndex = Some ms ->
    Forall (fun m => index m <= stop m /\ stop m <= List.length text) ms.
Proof.
  induction fuel as [|f IH]; intros L ms H; [discriminate|].
  cbn [matches_from] in H.
  destruct (exec ignoreCase r text L) as [[m|] li] eqn:E.
  - destruct (matches_from f _ _ _ _ _) as [ms'|] eqn:F; [|discriminate].
    injection H as <-.
    pose proof (exec_bounds _ _ _ _ _ _ E) as (Ha & Hb & Hc & _).
    constructor; [split; assumption | exact (IH _ _ F)].
  - injection H as <-. constructor.
Qed.

Lemma increasing_length :
  forall (l : list nat) (lo hi : nat),
    increasing l -> Forall (fun x => lo <= x /\ x <= hi) l ->
    List.length l <= S hi - lo.
Proof.
  unfold increasing.
  induction l as [|x l IH]; intros lo hi Hs Hb; cbn [List.length]; [lia|].
  inversion Hs as [|? ? Hs' Hx]; subst.
  inversion Hb as [|? ? [Hlo Hhi] Hb']; subst.
  assert (Hb'' : Forall (fun y => S x <= y /\ y <= hi) l).
  { rewrite Forall_forall in *. intros y Hy.
    specialize (Hx y Hy). specialize (Hb' y Hy). lia. }
  specialize (IH (S x) hi Hs' Hb''). lia.
Qed.

(** X1. A loop over [exec] that has the zero-width adjustment of
    [lastIndex] ends, whatever the pattern and the text: its body runs on
    finitely many matches, at most one per index of the text and one
    more, and the loop never hangs unless its body does. *)
Theorem guarded_loop_ends {A : Type} (ignoreCase : bool) (r : regex)
        (text : str) (body : A -> match_result -> completion A) (acc : A) :
  exists ms,
    exec_loop (loop_fuel text) ignoreCase r text true body 0 acc
    = each body ms acc
    /\ List.length ms <= List.length text + 1
    /\ increasing (map index ms).
Proof.
  destruct (matches_from_total ignoreCase r text true (or_introl eq_refl)
              (loop_fuel text) 0) as [ms Hms];
    [unfold loop_fuel; lia | unfold loop_fuel; lia |].
  exists ms.
  pose proof (matches_from_increasing ignoreCase r text true
                (or_introl eq_refl) _ _ _ Hms) as [Hinc _].
  pose proof (matches_from_stop _ _ _ _ _ _ _ Hms) as Hstop.
  split; [apply exec_loop_each; exact Hms | split; [|exact Hinc]].
  pose proof (increasing_length (map index ms) 0 (List.length text) Hinc)
    as Hlen.
  rewrite length_map in Hlen.
  assert (Hb : Forall (fun x => 0 <= x /\ x <= List.length text)
                      (map index ms)).
  { apply Forall_map. eapply Forall_impl; [|exact Hstop].
    cbn beta. intros m [H1 H2]. lia. }
  specialize (Hlen Hb). lia.
Qed.

End LoopBounds.

(** ** Comment spans *)

Section CommentSpans.

Import Regex Extractor Literal Spans.

Lemma prefix_app_r (p m b : str) :
  Str.prefix p m = true -> Str.prefix p (m ++ b) = true.
Proof.
  revert m. induction p as [|x p IH]; intros m H; [reflexivity|].
  destruct m as [|y m]; [discriminate|].
  cbn [Str.prefix app] in *. apply andb_prop in H. destruct H as [-> H].
  cbn [andb]. apply IH. exact H.
Qed.

(** The continuation after the lazy star: the closing mark. *)
Lemma close_mark n (s : str) :
  rmatch false n (RSeq (RChar "-") (RSeq (RChar "-") (RChar ">"))) s Some
  = if Str.prefix closing s then Some (skipn 3 s) else None.
Proof.
  cbn [rmatch Char.matches]. unfold closing.
  destruct s as [|a [|b [|c s]]]; cbn [Str.prefix lit list_ascii_of_string];
    repeat match goal with
           | |- context [Ascii.eqb ?x ?y] => destruct (Ascii.eqb x y)
           end; reflexivity.
Qed.

Lemma prefix_closing_split (s : str) :
  Str.prefix closing s = true -> s = closing ++ skipn 3 s.
Proof.
  unfold closing.
  destruct s as [|a [|b [|c s]]]; cbn [Str.prefix lit list_ascii_of_string];
    try discriminate;
    try (intros H; apply andb_prop in H; destruct H as [_ H]; discriminate).
  - intros H. apply andb_prop in H. destruct H as [_ H].
    apply andb_prop in H. destruct H as [_ H]. discriminate.
  - intros H. apply andb_prop in H. destruct H as [Ha H].
    apply andb_prop in H. destruct H as [Hb H].
    apply andb_prop in H. destruct H as [Hc _].
    apply Ascii.eqb_eq in Ha, Hb, Hc. subst. reflexivity.
Qed.

(** The lazy star stops at the first closing mark. *)
Lemma lazy_star_first_close n :
  forall fuel t e,
    star_loop
      (rmatch false n
         (RSet (fun c => Char.is_space c || negb (Char.is_space c))))
      false
      (fun s' =>
         rmatch false n (RSeq (RChar "-") (RSeq (RChar "-") (RChar ">")))
                s' Some)
      fuel t = Some e ->
    exists body, t = body ++ closing ++ e /\
                 Str.includes closing body = false.
Proof.
  assert (Hdone : forall t e,
             rmatch false n (RSeq (RChar "-") (RSeq (RChar "-") (RChar ">")))
                    t Some = Some e ->
             exists body, t = body ++ closing ++ e /\
                          Str.includes closing body = false).
  { intros t e H. rewrite close_mark in H.
    destruct (Str.prefix closing t) eqn:P; [|discriminate].
    injection H as <-. exists []. split; [|reflexivity].
    exact (prefix_closing_split t P). }
  induction fuel as [|f IH]; intros t e H; cbn [star_loop] in H.
  - exact (Hdone t e H).
  - destruct (rmatch false n _ t Some) as [e'|] eqn:K.
    + injection H as <-. exact (Hdone t e' K).
    + cbn [rmatch] in H. destruct t as [|x t']; [discriminate|].
      destruct (Char.is_space x || negb (Char.is_space x)); [|discriminate].
      destruct (List.length t' <? List.length (x :: t')); [|discriminate].
      destruct (IH t' e H) as (body & Ht & Hbody).
      exists (x :: body). split; [rewrite Ht; reflexivity|].
      cbn [Str.includes]. rewrite Hbody, orb_false_r.
      destruct (Str.prefix closing (x :: body)) eqn:P; [|reflexivity].
      apply (prefix_app_r _ _ (closing ++ e)) in P.
      cbn [app] in P. rewrite <- Ht in P.
      rewrite close_mark, P in K. discriminate.
Qed.

Lemma commentRegex_match n (s rest : str) :
  rmatch false n commentRegex s Some = Some rest ->
  exists body, s = ("<!--" : str) ++ body ++ closing ++ rest /\
               Str.includes closing body = false.
Proof.
  unfold commentRegex. intros H. cbn [rmatch] in H.
  destruct s as [|a s]; [discriminate|].
  destruct (Char.matches false "<" a) eqn:Ea; [|discriminate].
  destruct s as [|b s]; [discriminate|].
  destruct (Char.matches false "!" b) eqn:Eb; [|discriminate].
  destruct s as [|c s]; [discriminate|].
  destruct (Char.matches false "-" c) eqn:Ec; [|discriminate].
  destruct s as [|d s]; [discriminate|].
  destruct (Char.matches false "-" d) eqn:Ed; [|discriminate].
  cbn [Char.matches] in Ea, Eb, Ec, Ed.
  apply Ascii.eqb_eq in Ea, Eb, Ec, Ed. subst a b c d.
  apply (lazy_star_first_close n) in H. destruct H as (body & -> & Hbody).
  exists body. split; [reflexivity | exact Hbody].
Qed.

Lemma search_comment (h : str) :
  forall s m,
    s = skipn (List.length h - List.length s) h ->
    search false (List.length h) commentRegex s = Some m ->
    exists body,
      skipn (index m) h
      = ("<!--" : str) ++ body ++ closing ++ skipn (stop m) h
      /\ stop m = index m + List.length body + 7
      /\ stop m <= List.length h
      /\ Str.includes closing body = false.
Proof.
  induction s as [|c s IH]; intros m Hs H; cbn [search] in H.
  - destruct (rmatch false _ commentRegex [] Some) as [rest|] eqn:E;
      [|discriminate].
    apply commentRegex_match in E. destruct E as (body & E & _).
    discriminate E.
  - destruct (rmatch false _ commentRegex (c :: s) Some) as [rest|] eqn:E.
    + injection H as <-. cbn [index stop].
      apply commentRegex_match in E. destruct E as (body & E & Hbody).
      assert (Hlen : List.length (c :: s) = 7 + List.length body
                                            + List.length rest).
      { rewrite E, !length_app. unfold closing. cbn. lia. }
      assert (Hle : List.length (c :: s) <= List.length h).
      { rewrite Hs at 1. rewrite length_skipn. lia. }
      exists body.
      change (S (List.length s)) with (List.length (c :: s)).
      rewrite <- Hs.
      assert (Hrest : skipn (List.length h - List.length rest) h = rest).
      { replace (List.length h - List.length rest)
          with ((7 + List.length body)
                + (List.length h - List.length (c :: s))) by lia.
        rewrite <- skipn_skipn, <- Hs, E.
        replace (7 + List.length body)
          with (List.length (("<!--" : str) ++ body ++ closing))
          by (rewrite !length_app; unfold closing; cbn; lia).
        rewrite !app_assoc.
        rewrite <- (app_assoc ("<!--" : str) body closing).
        rewrite skipn_app, skipn_all, Nat.sub_diag. reflexivity. }
      rewrite Hrest.
      split; [exact E | split; [lia | split; [lia | exact Hbody]]].
    + apply IH; [|exact H].
      assert (Hle : List.length (c :: s) <= List.length h).
      { rewrite Hs at 1. rewrite length_skipn. lia. }
      cbn [List.length] in Hle.
      replace (List.length h - List.length s)
        with (1 + (List.length h - List.length (c :: s)))
        by (cbn [List.length]; lia).
      rewrite <- skipn_skipn, <- Hs. reflexivity.
Qed.

Lemma matches_from_forall ignoreCase r text guard (P : match_result -> Prop) :
  (forall L m li, exec ignoreCase r text L = (Some m, li) -> P m) ->
  forall fuel lastIndex ms,
    matches_from fuel ignoreCase r text guard lastIndex = Some ms ->
    Forall P ms.
Proof.
  intros HP. induction fuel as [|f IH]; intros L ms H; [discriminate|].
  cbn [matches_from] in H.
  destruct (exec ignoreCase r text L) as [[m|] li] eqn:E.
  - destruct (matches_from f _ _ _ _ _) as [ms'|] eqn:F; [|discriminate].
    injection H as <-. constructor; [exact (HP _ _ _ E) | exact (IH _ _ F)].
  - injection H as <-. constructor.
Qed.

(** X2. Every span the loop over [commentRegex] meets is an opening mark,
    a body and a closing mark: the text matched is [<!--], the captured
    group and [-->], and the group holds no closing mark, so a span ends
    at the first [-->] after its opening. *)
Theorem comment_span_shape (htmlString : str) :
  Forall (fun m =>
            Str.substring (index m) (stop m) htmlString
            = ("<!--" : str) ++ group1 htmlString m ++ ("-->" : str)
            /\ Str.includes "-->" (group1 htmlString m) = false
            /\ stop m <= List.length htmlString)
         (comment_matches htmlString).
Proof.
  apply (matches_from_forall false commentRegex htmlString false _)
    with (fuel := loop_fuel htmlString) (lastIndex := 0);
    [|apply comment_loop_total].
  intros L m li E. apply exec_Some in E. destruct E as (HL & Hs & _).
  apply search_comment in Hs;
    [|rewrite length_skipn;
      replace (List.length htmlString - (List.length htmlString - L))
        with L by lia; reflexivity].
  destruct Hs as (body & Hskip & Hstop & Hle & Hbody).
  assert (Hgroup : group1 htmlString m = body).
  { unfold group1, Str.substring.
    replace (index m + 4) with (4 + index m) by lia.
    rewrite <- skipn_skipn, Hskip. cbn [lit list_ascii_of_string app skipn].
    replace (stop m - 3 - (4 + index m)) with (List.length body) by lia.
    rewrite firstn_app, firstn_all, Nat.sub_diag. cbn [firstn].
    apply app_nil_r. }
  rewrite Hgroup. split; [|split; [exact Hbody | exact Hle]].
  unfold Str.substring. rewrite Hskip.
  replace (stop m - index m)
    with (List.length (("<!--" : str) ++ body ++ closing))
    by (rewrite !length_app; unfold closing; cbn; lia).
  rewrite !app_assoc.
  rewrite <- (app_assoc ("<!--" : str) body closing).
  rewrite firstn_app, firstn_all, Nat.sub_diag. cbn [firstn].
  rewrite app_nil_r. reflexivity.
Qed.

End CommentSpans.

(** ** Further properties of the extractor *)

Section ExtractorMore.

Import Regex Extractor Literal.

Lemma lit_scan_empty_keyword :
  forall (s : str) (i : nat),
    lit_scan [] i 0 s = seq i (S (List.length s)).
Proof.
  induction s as [|c s IH]; intros i; [reflexivity|].
  cbn [lit_scan prefix_ci List.length Nat.sub seq].
  rewrite IH. reflexivity.
Qed.

(** X3. With the empty keyword every index of a zone is a zero-width
    match: the loop advances [lastIndex] by one each time and returns one
    match per index from 0 to the length of the text. *)
Theorem empty_keyword_matches_everywhere (timestamp : jsval)
        (archiveUrl : str) (zone : MatchType) (text : str) :
  exists ms,
    scan_zone [] timestamp archiveUrl zone text [] = Normal ms
    /\ ms = map (found [] timestamp archiveUrl zone text)
                (seq 0 (S (List.length text)))
    /\ List.length ms = S (List.length text).
Proof.
  eexists. split; [apply (scan_zone_literal [] _ _ zone text [])|].
  unfold zone_matches, positions. rewrite lit_scan_empty_keyword.
  cbn [app]. split; [reflexivity|].
  rewrite length_map, length_seq. reflexivity.
Qed.




Lemma matches_ci_trans (a a' b : ascii) :
  Char.matches true a a' = true ->
  Char.matches true a' b = Char.matches true a b.
Proof.
  cbn [Char.matches]. intros H. apply Ascii.eqb_eq in H. rewrite H.
  reflexivity.
Qed.

Lemma prefix_ci_same :
  forall keyword keyword', same_ci keyword keyword' ->
    forall s, prefix_ci keyword' s = prefix_ci keyword s.
Proof.
  unfold same_ci.
  induction keyword as [|a keyword IH]; intros keyword' [Hlen Hpre] s.
  - destruct keyword'; [reflexivity | discriminate].
  - destruct keyword' as [|a' keyword']; [discriminate|].
    cbn [prefix_ci] in Hpre. apply andb_prop in Hpre.
    destruct Hpre as [Ha Hpre].
    destruct s as [|b s]; [reflexivity|]. cbn [prefix_ci].
    rewrite (matches_ci_trans a a' b Ha).
    rewrite (IH keyword') by (split; [cbn in Hlen; lia | exact Hpre]).
    reflexivity.
Qed.

Lemma lit_scan_same (keyword keyword' : str) :
  same_ci keyword keyword' ->
  forall s i k, lit_scan keyword' i k s = lit_scan keyword i k s.
Proof.
  intros Hsame. pose proof (prefix_ci_same _ _ Hsame) as Hpre.
  destruct Hsame as [Hlen _].
  induction s as [|c s IH]; intros i k; cbn [lit_scan].
  - rewrite Hpre. reflexivity.
  - destruct k as [|k]; [|apply IH].
    rewrite Hpre, Hlen, !IH. reflexivity.
Qed.

Lemma zone_matches_same (keyword keyword' : str) timestamp archiveUrl :
  same_ci keyword keyword' ->
  forall zone text,
    zone_matches keyword' timestamp archiveUrl zone text
    = zone_matches keyword timestamp archiveUrl zone text.
Proof.
  intros Hsame zone text. unfold zone_matches, positions.
  rewrite (lit_scan_same _ _ Hsame). destruct Hsame as [Hlen _].
  apply map_ext. intros i.
  unfold found, at_index. rewrite Hlen.
  destruct zone; cbn [zone_snippet];
    unfold text_snippet, js_snippet, comment_snippet, window, snippet_end;
    rewrite Hlen; reflexivity.
Qed.

Section WithParser.

Context {parser : Cheerio}.

(** X5. The letter case of the keyword does not matter: two keywords
    that differ in letter case only give the same matches, snippets
    included, on every page. *)
Theorem keyword_case_is_ignored (html keyword keyword' : str)
        (timestamp : jsval) (archiveUrl : str) :
  same_ci keyword keyword' ->
  extractData html keyword' timestamp archiveUrl
  = extractData html keyword timestamp archiveUrl.
Proof.
  intros Hsame. rewrite !extractData_literal. unfold extract_literal.
  rewrite (zone_matches_same _ _ timestamp archiveUrl Hsame).
  f_equal. f_equal. f_equal.
  - apply flat_map_ext. intros t.
    apply (zone_matches_same _ _ timestamp archiveUrl Hsame).
  - apply flat_map_ext. intros t.
    apply (zone_matches_same _ _ timestamp archiveUrl Hsame).
Qed.

Lemma extract_literal_forall (P : ScanMatch.t -> Prop) html keyword
      timestamp archiveUrl :
  (forall zone text i, P (found keyword timestamp archiveUrl zone text i)) ->
  Forall P (extract_literal html keyword timestamp archiveUrl).
Proof.
  intros HP.
  assert (Hzone : forall zone text,
             Forall P (zone_matches keyword timestamp archiveUrl zone text)).
  { intros zone text. unfold zone_matches. apply Forall_map.
    apply Forall_forall. intros i _. apply HP. }
  assert (Hflat : forall zone texts,
             Forall P (flat_map (zone_matches keyword timestamp archiveUrl zone)
                                texts)).
  { intros zone texts. apply Forall_flat_map. apply Forall_forall.
    intros t _. apply Hzone. }
  unfold extract_literal. repeat (apply Forall_app; split); auto.
Qed.

Lemma drop_while_length p (s : str) :
  List.length (Str.drop_while p s) <= List.length s.
Proof.
  induction s as [|c s IH]; cbn [Str.drop_while]; [lia|].
  destruct (p c); cbn [List.length]; lia.
Qed.

Lemma trim_length (s : str) : List.length (Str.trim s) <= List.length s.
Proof.
  unfold Str.trim. rewrite length_rev.
  pose proof (drop_while_length Char.is_space
                (rev (Str.drop_while Char.is_space s))) as H1.
  rewrite length_rev in H1.
  pose proof (drop_while_length Char.is_space s). lia.
Qed.

Lemma window_length (text keyword : str) (i : nat) :
  List.length (window text keyword (at_index keyword i))
  <= List.length keyword + 60.
Proof.
  unfold window.
  pose proof (substring_length (snippet_start (at_index keyword i))
                (snippet_end text keyword (at_index keyword i)) text) as H.
  unfold snippet_start, snippet_end, at_index in *. cbn [index] in *. lia.
Qed.

(** X6. Every match returned by [extractData] carries the timestamp and
    the archive URL it was given, and its snippet is an ellipsis, a piece
    of the zone's text of at most 60 characters more than the keyword,
    and an ellipsis. *)
Theorem matches_are_labelled_and_bounded (html keyword : str)
        (timestamp : jsval) (archiveUrl : str) :
  exists ms,
    extractData html keyword timestamp archiveUrl = Normal ms
    /\ Forall (fun m =>
                 ScanMatch.timestamp m = timestamp
                 /\ ScanMatch.archiveUrl m = archiveUrl
                 /\ exists middle : str,
                      ScanMatch.snippet m
                      = ("..." : str) ++ middle ++ ("..." : str)
                      /\ List.length middle <= List.length keyword + 60)
              ms.
Proof.
  eexists. split; [apply extractData_literal|].
  apply extract_literal_forall. intros zone text i.
  cbn [found ScanMatch.timestamp ScanMatch.archiveUrl ScanMatch.snippet].
  split; [reflexivity | split; [reflexivity|]].
  pose proof (window_length text keyword i) as Hw.
  destruct zone; cbn [zone_snippet];
    unfold text_snippet, js_snippet, comment_snippet, ellipsis;
    eexists; (split; [reflexivity|]).
  - unfold Str.newlines_to_spaces. rewrite length_map. exact Hw.
  - pose proof (trim_length
                  (Str.newlines_to_spaces
                     (window text keyword (at_index keyword i)))) as Ht.
    unfold Str.newlines_to_spaces in Ht at 2. rewrite length_map in Ht. lia.
  - pose proof (trim_length (window text keyword (at_index keyword i))). lia.
Qed.

(** X7. The snippet of a TEXT or JS match holds no line feed. *)
Theorem text_and_js_snippets_have_no_newline (html keyword : str)
        (timestamp : jsval) (archiveUrl : str) :
  exists ms,
    extractData html keyword timestamp archiveUrl = Normal ms
    /\ Forall (fun m =>
                 ScanMatch.matchType m = COMMENT
                 \/ Forall (fun c => Char.is_newline c = false)
                           (ScanMatch.snippet m))
              ms.
Proof.
  eexists. split; [apply extractData_literal|].
  apply extract_literal_forall. intros zone text i.
  cbn [found ScanMatch.matchType ScanMatch.snippet].
  destruct zone; [right | right | left; reflexivity];
    apply Forall_forall; cbn [zone_snippet].
  - apply text_snippet_no_newline.
  - apply js_snippet_no_newline.
Qed.

End WithParser.

End ExtractorMore.

Section ExtractorMoreExamples.

Import Regex Extractor Literal.

Lemma keyword_case_is_ignored_witness :
  same_ci "needle" "NEEDLE"
  /\ extractData (parser := Sample.pages) Sample.page1 "NEEDLE"
       (JStr "2020") "u"
     = extractData (parser := Sample.pages) Sample.page1 "needle"
         (JStr "2020") "u".
Proof.
  assert (H : same_ci "needle" "NEEDLE") by (split; reflexivity).
  split; [exact H|].
  exact (keyword_case_is_ignored (parser := Sample.pages) Sample.page1
           "needle" "NEEDLE" (JStr "2020") "u" H).
Defined.

End ExtractorMoreExamples.

(** ** The text of the TEXT zone *)

Section TextNormalization.

Import Regex Extractor Literal.

Lemma space_is_space : Char.is_space " " = true.
Proof. reflexivity. Qed.

Lemma collapse_run_chars :
  forall (s : str) (in_run : bool),
    Forall (fun c => negb (Char.is_space c) || Ascii.eqb c " " = true)
           (Str.collapse_run in_run s).
Proof.
  induction s as [|c s IH]; intros in_run; cbn [Str.collapse_run];
    [constructor|].
  destruct (Char.is_space c) eqn:E.
  - destruct in_run; [apply IH|]. constructor; [reflexivity | apply IH].
  - constructor; [rewrite E; reflexivity | apply IH].
Qed.

(** After a run has started the output does not begin with a space, and
    in no case does it hold two spaces in a row. *)
Lemma collapse_run_single :
  forall s : str,
    Str.includes "  " (Str.collapse_run false s) = false
    /\ Str.includes "  " (Str.collapse_run true s) = false
    /\ Str.prefix " " (Str.collapse_run true s) = false.
Proof.
  induction s as [|c s (IHf & IHt & IHp)]; cbn [Str.collapse_run];
    [repeat split; reflexivity|].
  destruct (Char.is_space c) eqn:E.
  - split; [|split; assumption].
    cbn [Str.includes]. rewrite IHt, orb_false_r.
    change (Str.prefix "  " (" "%char :: Str.collapse_run true s))
      with (Ascii.eqb " " " " && Str.prefix " " (Str.collapse_run true s)).
    rewrite IHp. reflexivity.
  - assert (Hc : Ascii.eqb " " c = false).
    { destruct (Ascii.eqb " " c) eqn:Q; [|reflexivity].
      apply Ascii.eqb_eq in Q. subst c. rewrite space_is_space in E.
      discriminate. }
    assert (Hdouble : Str.includes "  " (c :: Str.collapse_run false s)
                      = false).
    { cbn [Str.includes]. rewrite IHf, orb_false_r.
      change (Str.prefix "  " (c :: Str.collapse_run false s))
        with (Ascii.eqb " " c && Str.prefix " " (Str.collapse_run false s)).
      rewrite Hc. reflexivity. }
    split; [exact Hdouble | split; [exact Hdouble|]].
    change (Str.prefix " " (c :: Str.collapse_run false s))
      with (Ascii.eqb " " c && true).
    rewrite Hc. reflexivity.
Qed.

Lemma drop_while_split p (s : str) :
  exists dropped, s = dropped ++ Str.drop_while p s.
Proof.
  induction s as [|c s [d IH]]; cbn [Str.drop_while]; [exists []; reflexivity|].
  destruct (p c); [|exists []; reflexivity].
  exists (c :: d). cbn [app]. rewrite <- IH. reflexivity.
Qed.

Lemma drop_while_head p (s : str) :
  match Str.drop_while p s with
  | c :: _ => p c = false
  | [] => True
  end.
Proof.
  induction s as [|c s IH]; cbn [Str.drop_while]; [exact I|].
  destruct (p c) eqn:E; [exact IH | exact E].
Qed.

(** [trim] keeps a piece of the text: what is cut lies before and
    after. *)
Lemma trim_split (s : str) :
  exists before after, s = before ++ Str.trim s ++ after.
Proof.
  destruct (drop_while_split Char.is_space s) as [before Hb].
  destruct (drop_while_split Char.is_space
              (rev (Str.drop_while Char.is_space s))) as [after Ha].
  exists before, (rev after). unfold Str.trim.
  rewrite <- rev_app_distr, <- Ha, rev_involutive. exact Hb.
Qed.

Lemma includes_app_r (p m b : str) :
  Str.includes p m = true -> Str.includes p (m ++ b) = true.
Proof.
  induction m as [|x m IH]; cbn [Str.includes app]; intros H.
  - rewrite orb_false_r in H.
    destruct p; [|discriminate]. destruct b; reflexivity.
  - apply orb_prop in H. destruct H as [H | H].
    + change (x :: m ++ b) with ((x :: m) ++ b).
      rewrite (prefix_app_r _ _ b H). reflexivity.
    + rewrite (IH H). apply orb_true_r.
Qed.

Lemma includes_app_l (p a m : str) :
  Str.includes p m = true -> Str.includes p (a ++ m) = true.
Proof.
  intros H. induction a as [|x a IH]; [exact H|].
  cbn [app Str.includes]. rewrite IH. apply orb_true_r.
Qed.

Lemma includes_piece (p before m after : str) :
  Str.includes p (before ++ m ++ after) = false -> Str.includes p m = false.
Proof.
  intros H. destruct (Str.includes p m) eqn:E; [|reflexivity].
  apply (includes_app_r _ _ after) in E.
  apply (includes_app_l _ before) in E. congruence.
Qed.

Lemma trim_ends (s : str) :
  match Str.trim s with
  | c :: _ => Char.is_space c = false
  | [] => True
  end
  /\ match rev (Str.trim s) with
     | c :: _ => Char.is_space c = false
     | [] => True
     end.
Proof.
  split.
  - pose proof (drop_while_head Char.is_space s) as Hhead.
    destruct (drop_while_split Char.is_space
                (rev (Str.drop_while Char.is_space s))) as [after Ha].
    apply (f_equal (@rev ascii)) in Ha.
    rewrite rev_involutive, rev_app_distr in Ha.
    fold (Str.trim s) in Ha.
    destruct (Str.trim s) as [|c t]; [exact I|].
    rewrite Ha in Hhead. exact Hhead.
  - unfold Str.trim. rewrite rev_involutive.
    apply drop_while_head.
Qed.

(** X8. The text searched in the TEXT zone is normalized: its only white
    space characters are single spaces, never two in a row, and it
    neither starts nor ends with one.  In particular it holds no line
    feed. *)
Theorem text_zone_is_normalized (raw : str) :
  let textContent := Str.trim (Str.collapse_spaces raw) in
  Forall (fun c => negb (Char.is_space c) || Ascii.eqb c " " = true)
         textContent
  /\ Str.includes "  " textContent = false
  /\ match textContent with
     | c :: _ => Char.is_space c = false
     | [] => True
     end
  /\ match rev textContent with
     | c :: _ => Char.is_space c = false
     | [] => True
     end.
Proof.
  cbv zeta. split; [|split; [|apply trim_ends]].
  - destruct (trim_split (Str.collapse_spaces raw)) as (b & a & H).
    pose proof (collapse_run_chars raw false) as Hall.
    fold (Str.collapse_spaces raw) in Hall. rewrite H in Hall.
    apply Forall_app in Hall. destruct Hall as [_ Hall].
    apply Forall_app in Hall. destruct Hall as [Hall _]. exact Hall.
  - destruct (trim_split (Str.collapse_spaces raw)) as (b & a & H).
    destruct (collapse_run_single raw) as [Hsingle _].
    fold (Str.collapse_spaces raw) in Hsingle. rewrite H in Hsingle.
    exact (includes_piece _ _ _ _ Hsingle).
Qed.

End TextNormalization.

(** ** Escaping the keyword *)

Section Escaping.

Import Regex Extractor Literal.

Lemma escapeKeyword_injective :
  forall a b : str, escapeKeyword a = escapeKeyword b -> a = b.
Proof.
  assert (Hbackslash : is_syntax_char "\" = true) by reflexivity.
  induction a as [|x a IH]; intros b H.
  - destruct b as [|y b]; [reflexivity|].
    rewrite escapeKeyword_cons in H. cbn [escapeKeyword flat_map] in H.
    destruct (is_syntax_char y); discriminate.
  - destruct b as [|y b].
    + rewrite escapeKeyword_cons in H. cbn [escapeKeyword flat_map] in H.
      destruct (is_syntax_char x); discriminate.
    + rewrite !escapeKeyword_cons in H.
      destruct (is_syntax_char x) eqn:Ex, (is_syntax_char y) eqn:Ey;
        cbn [app] in H.
      * injection H as -> H. f_equal. exact (IH b H).
      * injection H as <- _. congruence.
      * injection H as -> _. congruence.
      * injection H as -> H. f_equal. exact (IH b H).
Qed.

(** X9. Escaping puts a backslash before each of the fourteen syntax
    characters and nothing else: the result is at most twice as long as
    the keyword, a keyword free of syntax characters is left as it is,
    and two different keywords never give the same pattern. *)
Theorem escapeKeyword_is_faithful (keyword : str) :
  List.length keyword <= List.length (escapeKeyword keyword)
  /\ List.length (escapeKeyword keyword) <= 2 * List.length keyword
  /\ (forallb (fun c => negb (is_syntax_char c)) keyword = true ->
      escapeKeyword keyword = keyword)
  /\ (forall other, escapeKeyword other = escapeKeyword keyword ->
                    other = keyword).
Proof.
  split; [apply escapeKeyword_length | split; [|split]].
  - induction keyword as [|c keyword IH]; [cbn; lia|].
    rewrite escapeKeyword_cons, length_app.
    destruct (is_syntax_char c); cbn [List.length] in *; lia.
  - induction keyword as [|c keyword IH]; [reflexivity|].
    cbn [forallb]. intros H. apply andb_prop in H. destruct H as [Hc H].
    rewrite escapeKeyword_cons.
    destruct (is_syntax_char c); [discriminate|].
    cbn [app]. rewrite (IH H). reflexivity.
  - intros other H. exact (escapeKeyword_injective _ _ H).
Qed.

End Escaping.

Section EscapingExamples.

Import Regex Extractor Literal.

Lemma escapeKeyword_is_faithful_witness :
  forallb (fun c => negb (is_syntax_char c)) ("needle" : str) = true
  /\ escapeKeyword "needle" = ("needle" : str).
Proof.
  assert (H : forallb (fun c => negb (is_syntax_char c)) ("needle" : str)
              = true) by reflexivity.
  split; [exact H|].
  exact (proj1 (proj2 (proj2 (escapeKeyword_is_faithful "needle"))) H).
Defined.

End EscapingExamples.

(** ** Further properties of the index client *)

Section IndexClientMore.

Import IndexClient.

Lemma map_throwing_normal :
  forall rows l,
    map_throwing to_snapshot rows = Normal l ->
    Forall (fun row => iterable row = true) rows
    /\ List.length l = List.length rows.
Proof.
  induction rows as [|row rows IH]; intros l H; cbn [map_throwing] in H.
  - injection H as <-. split; [constructor | reflexivity].
  - destruct (iterable row) eqn:E.
    + destruct (to_snapshot_iterable row E) as [s Hs].
      rewrite Hs in H. cbn [bind] in H.
      destruct (map_throwing to_snapshot rows) as [l'| |];
        cbn [bind] in H; try discriminate.
      injection H as <-. destruct (IH l' eq_refl) as [Hall Hlen].
      split; [constructor; assumption | cbn [List.length]; lia].
    + rewrite (to_snapshot_not_iterable row E) in H. discriminate.
Qed.

(** X10. The result of [fetchSnapshots] is all or nothing: either the
    empty list, or one snapshot for each row after the header of a
    successful answer, all of whose rows could be destructured.  A single
    row that cannot be destructured discards every snapshot. *)
Theorem fetchSnapshots_all_or_nothing (w : World) (domain : str)
        (year : option str) (limit : nat) :
  exists l,
    fetchSnapshots w domain year limit = Normal l
    /\ (l = []
        \/ exists status header rows,
             cdx w (build_query domain year limit)
             = Response status (Some (JArr (header :: rows)))
             /\ ok status = true
             /\ Forall (fun row => iterable row = true) rows
             /\ map_throwing to_snapshot rows = Normal l
             /\ List.length l = List.length rows).
Proof.
  unfold fetchSnapshots, request.
  destruct (cdx w (build_query domain year limit)) as [e | status body];
    [exists []; split; [reflexivity | left; reflexivity]|].
  destruct (ok status) eqn:Hok; cbn [negb];
    [|exists []; split; [reflexivity | left; reflexivity]].
  destruct body as [data|]; cbn [bind];
    [|exists []; split; [reflexivity | left; reflexivity]].
  destruct data as [| | | | |items|];
    try (exists []; split; [reflexivity | left; reflexivity]).
  destruct items as [|header rows];
    [exists []; split; [reflexivity | left; reflexivity]|].
  destruct rows as [|row rows];
    [exists []; split; [reflexivity | left; reflexivity]|].
  cbn [List.length Nat.leb skipn].
  destruct (map_throwing to_snapshot (row :: rows)) as [l|e|] eqn:E;
    cbn [try_catch].
  - exists l. split; [reflexivity|]. right.
    destruct (map_throwing_normal _ _ E) as [Hall Hlen].
    exists status, header, (row :: rows). repeat split; assumption.
  - exists []. split; [reflexivity | left; reflexivity].
  - destruct (map_throwing_to_snapshot (row :: rows)) as [[l H] | [e H]];
      rewrite H in E; discriminate.
Qed.

End IndexClientMore.

(** ** Further properties of the orchestrator *)

Section OrchestratorMore.

Import Extractor Literal IndexClient Orchestrator Run.

Context {parser : Cheerio}.

Lemma existsb_match_events (ms : list ScanMatch.t) :
  existsb is_match (map MatchEvent ms) = (0 <? List.length ms).
Proof. destruct ms; reflexivity. Qed.

(** The flag [foundAny] says whether the loop wrote a match event. *)
Lemma scan_from_found (w : World) (keyword : str) (total : nat) :
  forall snapshots i foundAny,
    match snd (scan_from w keyword total i snapshots foundAny []) with
    | Finished b =>
        b = foundAny
            || existsb is_match
                 (fst (scan_from w keyword total i snapshots foundAny []))
    | _ => True
    end.
Proof.
  induction snapshots as [|s rest IH]; intros i foundAny; cbn [scan_from].
  - cbn. rewrite orb_false_r. reflexivity.
  - destruct (negb (connected w i)); [exact I|].
    destruct (prepare total i s) as [[url progress]|e|] eqn:P;
      [|exact I..].
    apply prepare_Normal in P. destruct P as (_ & _ & ->).
    destruct (visit w keyword i s url) as [matches|e|]; [| |exact I].
    + rewrite scan_from_out. cbn [fst snd].
      specialize (IH (S i) (if 0 <? List.length matches then true
                            else foundAny)).
      destruct (snd (scan_from w keyword total (S i) rest _ []));
        [exact I | | exact I | exact I].
      rewrite IH, !existsb_app, existsb_match_events. cbn [app existsb is_match
        scanning_event orb].
      destruct (0 <? List.length matches), foundAny; reflexivity.
    + rewrite scan_from_out. cbn [fst snd].
      specialize (IH (S i) foundAny).
      destruct (snd (scan_from w keyword total (S i) rest _ []));
        [exact I | | exact I | exact I].
      rewrite IH, !existsb_app. cbn [app existsb is_match scanning_event orb].
      reflexivity.
Qed.

Lemma before_snapshot_not_terminal (k : nat) (e : ScanEvent) :
  before_snapshot k e = true -> is_terminal e = false.
Proof. destruct e; cbn; congruence. Qed.

Lemma scan_from_no_terminal (w : World) (keyword : str) (total : nat)
      snapshots i foundAny :
  Forall (fun e => is_terminal e = false)
         (fst (scan_from w keyword total i snapshots foundAny [])).
Proof.
  eapply Forall_impl; [|apply scan_from_events].
  cbn beta. intros e. apply before_snapshot_not_terminal.
Qed.

(** X11. Every stream has the same shape: events that are not terminal,
    then at most one terminal event, which is written exactly when the
    response is ended.  The terminal event is a [complete] event, whose
    message after a scan of at least one snapshot is [Scan complete.]
    exactly when a match event was written; or it is an [error] event,
    which is written only when one of the snapshots returned by the index
    has a timestamp or an original URL that cannot be printed. *)
Theorem stream_shape (w : World) (req : ScanRequest) :
  exists body,
    Forall (fun e => is_terminal e = false) body
    /\ ((events (scan w req) = body /\ ended (scan w req) = false)
        \/ exists terminal,
             events (scan w req) = body ++ [terminal]
             /\ ended (scan w req) = true
             /\ ((body = [contacting_event req]
                  /\ terminal
                     = Complete "No snapshots found for this criteria.")
                 \/ terminal = Complete (closing_message body)
                 \/ (terminal = Error (error_message w TypeError)
                     /\ exists snapshots s,
                          fetchSnapshots w (domain req) (year req) (limit req)
                          = Normal snapshots
                          /\ In s snapshots
                          /\ convertible_snapshot s = false))).
Proof.
  unfold scan.
  destruct (request_returns_or_throws w
              (build_query (domain req) (year req) (limit req)))
    as [[l Hl] | [e He]].
  - assert (Hfetch : fetchSnapshots w (domain req) (year req) (limit req)
                     = Normal l)
      by (unfold fetchSnapshots; rewrite Hl; reflexivity).
    rewrite Hfetch.
    destruct (List.length l =? 0).
    + exists [contacting_event req]. split; [repeat constructor|].
      right. eexists. split; [reflexivity | split; [reflexivity|]].
      left. split; reflexivity.
    + set (total := List.length l).
      rewrite scan_from_out.
      pose proof (scan_from_found w (keyword req) total l 0 false) as Hfound.
      pose proof (scan_from_no_terminal w (keyword req) total l 0 false)
        as Hloop.
      pose proof (scan_from_failed w (keyword req) total l 0 false [])
        as Hfailed.
      set (loop := scan_from w (keyword req) total 0 l false []) in *.
      exists (([contacting_event req] ++ [analyzing_event req total])
                ++ fst loop).
      split; [apply Forall_app; split; [repeat constructor | exact Hloop]|].
      destruct (snd loop) as [|b|e|]; cbn [events ended].
      * left. split; reflexivity.
      * right. cbn [orb] in Hfound. subst b.
        assert (Hmsg : closing_message
                         (([contacting_event req]
                             ++ [analyzing_event req total]) ++ fst loop)
                       = if existsb is_match (fst loop)
                         then "Scan complete." : str
                         else "Scan finished. No matches found." : str).
        { unfold closing_message. rewrite existsb_app. reflexivity. }
        rewrite Hmsg.
        destruct (existsb is_match (fst loop)); eexists;
          (split; [reflexivity | split; [reflexivity|]]);
          right; left; reflexivity.
      * right. destruct (Hfailed e eq_refl) as (-> & s & Hin & Hs).
        eexists. split; [reflexivity | split; [reflexivity|]].
        right; right. split; [reflexivity|].
        exists l, s. repeat split; assumption.
      * left. split; reflexivity.
  - assert (Hfetch : fetchSnapshots w (domain req) (year req) (limit req)
                     = Normal [])
      by (unfold fetchSnapshots; rewrite He; reflexivity).
    rewrite Hfetch. cbn [List.length Nat.eqb].
    exists [contacting_event req]. split; [repeat constructor|].
    right. eexists. split; [reflexivity | split; [reflexivity|]].
    left. split; reflexivity.
Qed.

(** X12. An index that cannot be used looks like an index without
    snapshots: when the index request fails, the caller receives the
    opening progress event and [No snapshots found for this criteria.],
    and no [error] event. *)
Theorem index_failure_is_masked (w : World) (req : ScanRequest) :
  index_failure
    (cdx w (build_query (domain req) (year req) (limit req))) = true ->
  scan w req
  = {| events := [ contacting_event req;
                   Complete "No snapshots found for this criteria." ];
       ended := true |}.
Proof.
  intros H. unfold scan.
  assert (Hfetch : fetchSnapshots w (domain req) (year req) (limit req)
                   = Normal []).
  { unfold fetchSnapshots.
    destruct (request_failure w _ H) as [-> | [e ->]]; reflexivity. }
  rewrite Hfetch. reflexivity.
Qed.

(** While the client stays connected and the snapshots can be printed,
    the loop writes one block per snapshot and goes on with what
    follows. *)
Lemma scan_from_blocks_app (w : World) (keyword : str) (total : nat) :
  forall done i foundAny rest,
    (forall j, i <= j < i + List.length done -> connected w j = true) ->
    forallb convertible_snapshot done = true ->
    scan_from w keyword total i (done ++ rest) foundAny []
    = scan_from w keyword total (i + List.length done) rest
        (foundAny || existsb is_match (blocks w keyword total i done))
        (blocks w keyword total i done).
Proof.
  induction done as [|s done IH]; intros i foundAny rest Hconn Hprint;
    cbn [scan_from blocks app List.length].
  - cbn [existsb]. rewrite orb_false_r, Nat.add_0_r. reflexivity.
  - cbn [forallb] in Hprint. apply andb_prop in Hprint.
    destruct Hprint as [Hs Hdone].
    rewrite (Hconn i) by (cbn [List.length]; lia). cbn [negb].
    assert (Hrest : forall j, S i <= j < S i + List.length done ->
                              connected w j = true)
      by (intros j Hj; apply Hconn; cbn [List.length]; lia).
    rewrite (prepare_convertible total i s Hs).
    unfold visit_matches.
    pose proof (visit_returns_or_throws w keyword i s (url_of s)) as Hvisit.
    replace (i + S (List.length done)) with (S i + List.length done) by lia.
    destruct (visit w keyword i s (url_of s)) as [matches|e|];
      [| |contradiction].
    + rewrite scan_from_out, (IH (S i) _ rest Hrest Hdone).
      rewrite (scan_from_out w keyword total rest _ _
                 (scanning_event total i (shown (Snapshot.timestamp s))
                    :: map MatchEvent matches
                    ++ blocks w keyword total (S i) done)).
      rewrite (scan_from_out w keyword total rest _ _
                 (blocks w keyword total (S i) done)).
      cbn [fst snd app existsb is_match scanning_event orb].
      rewrite existsb_app, existsb_match_events, <- !app_assoc.
      replace ((if 0 <? List.length matches then true else foundAny)
               || existsb is_match (blocks w keyword total (S i) done))
        with (foundAny
              || ((0 <? List.length matches)
                  || existsb is_match (blocks w keyword total (S i) done)))
        by (destruct (0 <? List.length matches), foundAny; reflexivity).
      reflexivity.
    + rewrite scan_from_out, (IH (S i) _ rest Hrest Hdone).
      rewrite (scan_from_out w keyword total rest _ _
                 (scanning_event total i (shown (Snapshot.timestamp s))
                    :: map MatchEvent []
                    ++ blocks w keyword total (S i) done)).
      rewrite (scan_from_out w keyword total rest _ _
                 (blocks w keyword total (S i) done)).
      cbn [fst snd app map existsb is_match scanning_event orb].
      reflexivity.
Qed.

Lemma scan_from_blocks (w : World) (keyword : str) (total : nat) :
  forall snapshots i foundAny,
    (forall j, i <= j < i + List.length snapshots -> connected w j = true) ->
    forallb convertible_snapshot snapshots = true ->
    scan_from w keyword total i snapshots foundAny []
    = (blocks w keyword total i snapshots,
       Finished (foundAny
                 || existsb is_match (blocks w keyword total i snapshots))).
Proof.
  intros snapshots i foundAny Hconn Hprint.
  rewrite <- (app_nil_r snapshots) at 1.
  rewrite (scan_from_blocks_app w keyword total snapshots i foundAny []
             Hconn Hprint).
  reflexivity.
Qed.

(** X13. With the client connected throughout and snapshots that can all
    be printed, the stream of a scan of [N >= 1] snapshots is: the two
    opening progress events; for each snapshot in index order its
    progress event, numbered [i + 1] of [N], followed at once by the
    match events of its page (none when its fetch or extraction fails);
    and the [complete] event.  So all matches of a snapshot come before
    the progress event of the next. *)
Theorem connected_scan_stream (w : World) (req : ScanRequest)
        (snapshots : list Snapshot.t) :
  fetchSnapshots w (domain req) (year req) (limit req) = Normal snapshots ->
  snapshots <> [] ->
  (forall i, i < List.length snapshots -> connected w i = true) ->
  forallb convertible_snapshot snapshots = true ->
  let body :=
    [contacting_event req; analyzing_event req (List.length snapshots)]
      ++ blocks w (keyword req) (List.length snapshots) 0 snapshots in
  scan w req
  = {| events := body ++ [Complete (closing_message body)];
       ended := true |}.
Proof.
  intros Hfetch Hne Hconn Hprint. cbv zeta. unfold scan. rewrite Hfetch.
  destruct snapshots as [|s rest] eqn:K; [contradiction|].
  rewrite <- K in *.
  assert (Hlen : (List.length snapshots =? 0) = false)
    by (rewrite K; reflexivity).
  rewrite Hlen, scan_from_out.
  rewrite (scan_from_blocks w (keyword req) (List.length snapshots)
             snapshots 0 false)
    by (first [exact Hprint | intros j Hj; apply Hconn; lia]).
  cbn [fst snd orb].
  unfold closing_message. rewrite existsb_app.
  cbn [existsb is_match contacting_event analyzing_event orb app].
  destruct (existsb is_match
              (blocks w (keyword req) (List.length snapshots) 0 snapshots));
    reflexivity.
Qed.

Lemma visit_fails (w : World) (keyword : str) (i : nat) (s : Snapshot.t) :
  replay_fails (replay w i (url_of s)) = true ->
  visit_matches w keyword i s = [].
Proof.
  unfold visit_matches, visit, replay_fails.
  destruct (replay w i (url_of s)) as [e | status body];
    [reflexivity|].
  destruct (ok status); cbn [negb orb]; [|reflexivity].
  destruct body; [discriminate | reflexivity].
Qed.

Lemma blocks_all_fail (w : World) (keyword : str) (total : nat) :
  (forall i url, replay_fails (replay w i url) = true) ->
  forall snapshots i,
    blocks w keyword total i snapshots = progress_only total i snapshots.
Proof.
  intros Hfail. induction snapshots as [|s rest IH]; intros i;
    cbn [blocks progress_only]; [reflexivity|].
  rewrite visit_fails by apply Hfail. cbn [map app]. rewrite IH.
  reflexivity.
Qed.

Lemma progress_only_no_match (total : nat) :
  forall snapshots i,
    existsb is_match (progress_only total i snapshots) = false.
Proof.
  induction snapshots as [|s rest IH]; intros i; cbn [progress_only existsb];
    [reflexivity|].
  rewrite IH. reflexivity.
Qed.

(** X14. Failures of single snapshots are passed over in silence: when
    every replay request fails (rejected, timed out, a status that is not
    a success, an unreadable body), the client stays connected and the
    snapshots can all be printed, the scan still visits every snapshot,
    writes one progress event for each, no match and no [error] event,
    and ends with [Scan finished. No matches found.]. *)
Theorem failed_snapshots_are_skipped (w : World) (req : ScanRequest)
        (snapshots : list Snapshot.t) :
  fetchSnapshots w (domain req) (year req) (limit req) = Normal snapshots ->
  snapshots <> [] ->
  (forall i, i < List.length snapshots -> connected w i = true) ->
  forallb convertible_snapshot snapshots = true ->
  (forall i url, replay_fails (replay w i url) = true) ->
  scan w req
  = {| events :=
         [contacting_event req; analyzing_event req (List.length snapshots)]
           ++ progress_only (List.length snapshots) 0 snapshots
           ++ [Complete "Scan finished. No matches found."];
       ended := true |}.
Proof.
  intros Hfetch Hne Hconn Hprint Hfail. unfold scan. rewrite Hfetch.
  destruct snapshots as [|s rest] eqn:K; [contradiction|].
  rewrite <- K in *.
  assert (Hlen : (List.length snapshots =? 0) = false)
    by (rewrite K; reflexivity).
  rewrite Hlen, scan_from_out.
  rewrite (scan_from_blocks w (keyword req) (List.length snapshots)
             snapshots 0 false)
    by (first [exact Hprint | intros j Hj; apply Hconn; lia]).
  rewrite (blocks_all_fail w (keyword req) _ Hfail).
  cbn [fst snd orb]. rewrite progress_only_no_match.
  rewrite <- app_assoc. reflexivity.
Qed.

(** X16. A snapshot whose timestamp or original URL cannot be printed
    ends the scan: when the loop reaches it, with the client connected,
    the exception raised while its archive URL is built is caught by the
    outer [catch]; the stream holds the blocks of the snapshots before
    it, then an [error] event with the exception's message, and the
    response is ended.  No progress event is written for that snapshot
    and the snapshots after it are not visited. *)
Theorem unprintable_snapshot_ends_scan (w : World) (req : ScanRequest)
        (snapshots : list Snapshot.t) (k : nat) (s : Snapshot.t) :
  fetchSnapshots w (domain req) (year req) (limit req) = Normal snapshots ->
  nth_error snapshots k = Some s ->
  convertible_snapshot s = false ->
  forallb convertible_snapshot (firstn k snapshots) = true ->
  (forall j, j <= k -> connected w j = true) ->
  scan w req
  = {| events :=
         [contacting_event req; analyzing_event req (List.length snapshots)]
           ++ blocks w (keyword req) (List.length snapshots) 0
                (firstn k snapshots)
           ++ [Error (error_message w TypeError)];
       ended := true |}.
Proof.
  intros Hfetch Hnth Hs Hprint Hconn.
  assert (Hk : k < List.length snapshots)
    by (apply nth_error_Some; congruence).
  assert (Hlen : List.length (firstn k snapshots) = k)
    by (apply firstn_length_le; lia).
  assert (Hsplit : snapshots
                   = firstn k snapshots ++ s :: skipn (S k) snapshots).
  { rewrite <- (firstn_skipn k snapshots) at 1. f_equal.
    clear - Hnth. revert k Hnth.
    induction snapshots as [|x l IH]; intros [|k] H; try discriminate.
    - injection H as ->. reflexivity.
    - cbn [nth_error] in H. exact (IH k H). }
  unfold scan. rewrite Hfetch.
  assert (Hzero : (List.length snapshots =? 0) = false)
    by (apply Nat.eqb_neq; lia).
  rewrite Hzero, scan_from_out.
  set (total := List.length snapshots).
  replace (scan_from w (keyword req) total 0 snapshots false [])
    with (scan_from w (keyword req) total 0
            (firstn k snapshots ++ s :: skipn (S k) snapshots) false [])
    by (rewrite <- Hsplit; reflexivity).
  rewrite (scan_from_blocks_app w (keyword req) total (firstn k snapshots) 0
             false (s :: skipn (S k) snapshots))
    by (first [exact Hprint | intros j Hj; apply Hconn; lia]).
  cbn [Nat.add]. rewrite Hlen. cbn [scan_from].
  rewrite (Hconn k) by lia. cbn [negb].
  rewrite (prepare_not_convertible total k s Hs).
  cbn [fst snd events ended]. rewrite <- app_assoc. reflexivity.
Qed.

End OrchestratorMore.

Section OrchestratorMoreExamples.

Import Extractor Literal IndexClient Orchestrator Run MoreSamples.

Lemma index_failure_is_masked_witness :
  index_failure
    (cdx Sample.world_down
         (build_query (domain request) (year request) (limit request)))
  = true
  /\ scan (parser := Sample.pages) Sample.world_down request
     = {| events := [ contacting_event request;
                      Complete "No snapshots found for this criteria." ];
          ended := true |}.
Proof.
  assert (H : index_failure
                (cdx Sample.world_down
                     (build_query (domain request) (year request)
                                  (limit request))) = true)
    by reflexivity.
  split; [exact H|].
  exact (index_failure_is_masked (parser := Sample.pages)
           Sample.world_down request H).
Defined.

Lemma connected_scan_stream_witness :
  let snapshots := [row_snapshot (Sample.capture "2020")] in
  fetchSnapshots Sample.world1 (domain request) (year request)
    (limit request) = Normal snapshots
  /\ snapshots <> []
  /\ (forall i, i < List.length snapshots -> connected Sample.world1 i = true)
  /\ forallb convertible_snapshot snapshots = true
  /\ let body :=
       [contacting_event request;
        analyzing_event request (List.length snapshots)]
         ++ blocks (parser := Sample.pages) Sample.world1 (keyword request)
              (List.length snapshots) 0 snapshots in
     scan (parser := Sample.pages) Sample.world1 request
     = {| events := body ++ [Complete (closing_message body)];
          ended := true |}.
Proof.
  intros snapshots.
  assert (H1 : fetchSnapshots Sample.world1 (domain request) (year request)
                 (limit request) = Normal snapshots) by reflexivity.
  assert (H2 : snapshots <> []) by discriminate.
  assert (H3 : forall i, i < List.length snapshots ->
                         connected Sample.world1 i = true).
  { intros i Hi. destruct i as [|i]; [reflexivity|].
    cbn in Hi. apply Nat.succ_lt_mono in Hi. inversion Hi. }
  assert (H4 : forallb convertible_snapshot snapshots = true)
    by reflexivity.
  split; [exact H1 | split; [exact H2 | split; [exact H3 | split;
    [exact H4|]]]].
  exact (connected_scan_stream (parser := Sample.pages) Sample.world1
           request snapshots H1 H2 H3 H4).
Defined.

Lemma failed_snapshots_are_skipped_witness :
  let snapshots := [row_snapshot (Sample.capture "2020");
                    row_snapshot (Sample.capture "2021")] in
  fetchSnapshots world_404 (domain request) (year request) (limit request)
  = Normal snapshots
  /\ snapshots <> []
  /\ (forall i, i < List.length snapshots -> connected world_404 i = true)
  /\ forallb convertible_snapshot snapshots = true
  /\ (forall i url, replay_fails (replay world_404 i url) = true)
  /\ scan (parser := Sample.pages) world_404 request
     = {| events :=
            [contacting_event request;
             analyzing_event request (List.length snapshots)]
              ++ progress_only (List.length snapshots) 0 snapshots
              ++ [Complete "Scan finished. No matches found."];
          ended := true |}.
Proof.
  intros snapshots.
  assert (H1 : fetchSnapshots world_404 (domain request) (year request)
                 (limit request) = Normal snapshots) by reflexivity.
  assert (H2 : snapshots <> []) by discriminate.
  assert (H3 : forall i, i < List.length snapshots ->
                         connected world_404 i = true)
    by (intros i _; reflexivity).
  assert (H4 : forallb convertible_snapshot snapshots = true)
    by reflexivity.
  assert (H5 : forall i url, replay_fails (replay world_404 i url) = true)
    by (intros i url; reflexivity).
  split; [exact H1 | split; [exact H2 | split; [exact H3 | split;
    [exact H4 | split; [exact H5|]]]]].
  exact (failed_snapshots_are_skipped (parser := Sample.pages) world_404
           request snapshots H1 H2 H3 H4 H5).
Defined.

Lemma unprintable_snapshot_ends_scan_witness :
  let snapshots :=
    map row_snapshot [Sample.capture "2020";
                      JArr [unprintable; JStr "http://example.org/"];
                      Sample.capture "2022"] in
  let s := row_snapshot (JArr [unprintable; JStr "http://example.org/"]) in
  fetchSnapshots world_unprintable (domain request) (year request)
    (limit request) = Normal snapshots
  /\ nth_error snapshots 1 = Some s
  /\ convertible_snapshot s = false
  /\ forallb convertible_snapshot (firstn 1 snapshots) = true
  /\ (forall j, j <= 1 -> connected world_unprintable j = true)
  /\ scan (parser := Sample.pages) world_unprintable request
     = {| events :=
            [contacting_event request;
             analyzing_event request (List.length snapshots)]
              ++ blocks (parser := Sample.pages) world_unprintable
                   (keyword request) (List.length snapshots) 0
                   (firstn 1 snapshots)
              ++ [Error (error_message world_unprintable TypeError)];
          ended := true |}.
Proof.
  intros snapshots s.
  assert (H1 : fetchSnapshots world_unprintable (domain request)
                 (year request) (limit request) = Normal snapshots)
    by reflexivity.
  assert (H2 : nth_error snapshots 1 = Some s) by reflexivity.
  assert (H3 : convertible_snapshot s = false) by reflexivity.
  assert (H4 : forallb convertible_snapshot (firstn 1 snapshots) = true)
    by reflexivity.
  assert (H5 : forall j, j <= 1 -> connected world_unprintable j = true).
  { intros j Hj. destruct j as [|[|j]]; [reflexivity | reflexivity|].
    apply Nat.succ_le_mono in Hj. inversion Hj. }
  split; [exact H1 | split; [exact H2 | split; [exact H3 | split;
    [exact H4 | split; [exact H5|]]]]].
  exact (unprintable_snapshot_ends_scan (parser := Sample.pages)
           world_unprintable request snapshots 1 s H1 H2 H3 H4 H5).
Defined.

End OrchestratorMoreExamples.

(** ** Where match events come from *)

Section Attribution.

Import Extractor Literal IndexClient Orchestrator Run.

Context {parser : Cheerio}.

(** A match event that carries the timestamp and the archive URL of one
    of the snapshots; any other event. *)
Let from_snapshot (snapshots : list Snapshot.t) (e : ScanEvent) : Prop :=
  match e with
  | MatchEvent m =>
      exists s,
        In s snapshots
        /\ ScanMatch.timestamp m = Snapshot.timestamp s
        /\ exists t o,
             to_string (Snapshot.timestamp s) = Normal t
             /\ to_string (Snapshot.original s) = Normal o
             /\ ScanMatch.archiveUrl m
                = "https://web.archive.org/web/" +++ t +++ "/" +++ o
  | _ => True
  end.

Lemma visit_labels (w : World) (keyword : str) (i : nat) (s : Snapshot.t)
      (url : str) (ms : list ScanMatch.t) :
  visit w keyword i s url = Normal ms ->
  Forall (fun m => ScanMatch.timestamp m = Snapshot.timestamp s
                   /\ ScanMatch.archiveUrl m = url) ms.
Proof.
  unfold visit.
  destruct (replay w i url) as [e | status body];
    [discriminate|].
  destruct (ok status); [|intros H; injection H as <-; constructor].
  destruct body as [page|]; [|discriminate].
  rewrite extractData_literal. intros H. injection H as <-.
  apply extract_literal_forall. intros zone text p. split; reflexivity.
Qed.

Lemma scan_from_attribution (w : World) (keyword : str) (total : nat)
      (all : list Snapshot.t) :
  forall snapshots i foundAny,
    incl snapshots all ->
    Forall (from_snapshot all)
           (fst (scan_from w keyword total i snapshots foundAny [])).
Proof.
  induction snapshots as [|s rest IH]; intros i foundAny Hincl;
    cbn [scan_from]; [constructor|].
  assert (Hs : In s all) by (apply Hincl; left; reflexivity).
  assert (Hrest : incl rest all)
    by (intros x Hx; apply Hincl; right; exact Hx).
  destruct (negb (connected w i)); [constructor|].
  destruct (prepare total i s) as [[url progress]|e|] eqn:P;
    [|constructor..].
  apply prepare_Normal in P. destruct P as (Hprint & -> & ->).
  unfold convertible_snapshot in Hprint. apply andb_prop in Hprint.
  destruct Hprint as [Ht Ho].
  destruct (visit w keyword i s (url_of s)) as [ms|e|] eqn:V.
  - rewrite scan_from_out. cbn [fst app].
    constructor; [exact I|].
    apply Forall_app. split; [|apply IH; exact Hrest].
    apply Forall_map. eapply Forall_impl; [|exact (visit_labels _ _ _ _ _ _ V)].
    cbn beta. intros m [Hm Hu]. exists s.
    split; [exact Hs | split; [exact Hm|]].
    exists (shown (Snapshot.timestamp s)), (shown (Snapshot.original s)).
    split; [exact (convertible_shown _ Ht)|].
    split; [exact (convertible_shown _ Ho) | exact Hu].
  - rewrite scan_from_out. cbn [fst app].
    constructor; [exact I | apply IH; exact Hrest].
  - cbn [fst app]. constructor; [exact I | constructor].
Qed.

(** X15. Every match event of a stream belongs to one of the snapshots
    the index returned: it carries that snapshot's timestamp and the
    archive URL built from its timestamp and original URL as a template
    literal prints them. *)
Theorem match_events_belong_to_snapshots (w : World) (req : ScanRequest) :
  exists snapshots,
    fetchSnapshots w (domain req) (year req) (limit req) = Normal snapshots
    /\ Forall (fun e =>
                 match e with
                 | MatchEvent m =>
                     exists s,
                       In s snapshots
                       /\ ScanMatch.timestamp m = Snapshot.timestamp s
                       /\ exists t o,
                            to_string (Snapshot.timestamp s) = Normal t
                            /\ to_string (Snapshot.original s) = Normal o
                            /\ ScanMatch.archiveUrl m
                               = "https://web.archive.org/web/"
                                   +++ t +++ "/" +++ o
                 | _ => True
                 end)
              (events (scan w req)).
Proof.
  assert (Hfetch : exists l, fetchSnapshots w (domain req) (year req)
                               (limit req) = Normal l).
  { unfold fetchSnapshots.
    destruct (request_returns_or_throws w
                (build_query (domain req) (year req) (limit req)))
      as [[l ->] | [e ->]]; cbn [try_catch]; eauto. }
  destruct Hfetch as [l Hl]. exists l. split; [exact Hl|].
  change (Forall (from_snapshot l) (events (scan w req))).
  unfold scan. rewrite Hl.
  destruct (List.length l =? 0); [repeat constructor|].
  rewrite scan_from_out.
  pose proof (scan_from_attribution w (keyword req) (List.length l) l l 0
                false (incl_refl l)) as Hloop.
  destruct (snd (scan_from w (keyword req) (List.length l) 0 l false []))
    as [|[|]|e|]; cbn [events];
    repeat (apply Forall_app; split); try exact Hloop;
    repeat constructor.
Qed.

End Attribution.
